(** * thrift_tools.idl: schema-driven decoding of raw Thrift messages

    A shallow embedding of [src/thrift_tools/idl.py]: the schema classes
    ([Enum], [Struct], [Exc], [List], [Set], [Map], [Function], [Idl]),
    their [parse] methods, [Function.get_args] and [Idl.get_function],
    followed by the properties the specification states about them.

    Python values are a first-order datatype, raised exceptions are an
    explicit error result, and dictionaries keyed by integers or strings are
    finite maps. *)

From Stdlib Require Import ZArith String Ascii Bool.
From stdpp Require Import base option list gmap strings.

Set Warnings "-register-all".

Local Open Scope string_scope.
Local Open Scope list_scope.
Local Open Scope Z_scope.

(** ** Python values *)

(** The runtime values that reach the decoder.  [VField] is an entry of a
    wire-level struct: an object with the attributes [field_id] and [value]
    read by the source.  Its class is not part of [idl.py]; like every
    instance of a plain class it is hashed and compared by object identity,
    recorded here as [oid].  Sets and dictionaries keep their elements in
    insertion order. *)
Inductive pyval : Type :=
| VNone
| VBool (b : bool)
| VInt (z : Z)
| VStr (s : string)
| VTuple (items : list pyval)
| VList (items : list pyval)
| VSet (items : list pyval)
| VDict (items : list (pyval * pyval))
| VField (oid : positive) (field_id : Z) (val : pyval).

(** Exceptions raised by the operations the source performs. *)
Inductive exn : Type :=
| KeyError
| TypeError
| AttributeError
| ValueError.

(** A computation either returns or raises. *)
Inductive result (A : Type) : Type :=
| Ok (a : A)
| Raise (e : exn).
Arguments Ok {A} a.
Arguments Raise {A} e.

Definition bind {A B : Type} (m : result A) (k : A → result B) : result B :=
  match m with
  | Ok a => k a
  | Raise e => Raise e
  end.

Notation "'let*' x ':=' m 'in' k" := (bind m (λ x, k))
  (at level 10, x name, m at level 100, k at level 200, only parsing).

(** [try: body except: handler] with a bare [except], which catches every
    exception. *)
Definition try_except {A : Type} (body : result A) (handler : exn → result A)
  : result A :=
  match body with
  | Ok a => Ok a
  | Raise e => handler e
  end.

(** A [for] loop that appends one computed item per element. *)
Section for_each.
Context {A B : Type} (f : A → result B).

Fixpoint for_each (l : list A) : result (list B) :=
  match l with
  | [] => Ok []
  | x :: l' => let* y := f x in let* ys := for_each l' in Ok (y :: ys)
  end.
End for_each.

(** A [for] loop that threads an accumulator. *)
Section for_fold.
Context {A S : Type} (f : S → A → result S).

Fixpoint for_fold (s : S) (l : list A) : result S :=
  match l with
  | [] => Ok s
  | x :: l' => let* s' := f s x in for_fold s' l'
  end.
End for_fold.

(** *** Iteration, attributes, hashing and equality *)

Definition chars (s : string) : list pyval :=
  (λ c, VStr (String c EmptyString)) <$> list_ascii_of_string s.

(** [iter(v)]: sequences yield their items, a dictionary its keys, a string
    its characters; anything else is not iterable. *)
Definition py_iter (v : pyval) : result (list pyval) :=
  match v with
  | VTuple l | VList l | VSet l => Ok l
  | VDict d => Ok (d.*1)
  | VStr s => Ok (chars s)
  | VNone | VBool _ | VInt _ | VField _ _ _ => Raise TypeError
  end.

(** [x.field_id] *)
Definition get_field_id (x : pyval) : result Z :=
  match x with
  | VField _ fid _ => Ok fid
  | _ => Raise AttributeError
  end.

(** [x.value] *)
Definition get_value (x : pyval) : result pyval :=
  match x with
  | VField _ _ v => Ok v
  | _ => Raise AttributeError
  end.

(** [hash(v)] succeeds on immutable values and on objects. *)
Fixpoint hashable (v : pyval) : bool :=
  match v with
  | VNone | VBool _ | VInt _ | VStr _ | VField _ _ _ => true
  | VTuple l => forallb hashable l
  | VList _ | VSet _ | VDict _ => false
  end.

(** The representative of a hashable pyval's equality class: booleans are
    the integers 0 and 1, tuples compare item-wise, objects by identity. *)
Fixpoint py_key (v : pyval) : pyval :=
  match v with
  | VBool b => VInt (Z.b2z b)
  | VTuple l => VTuple (map py_key l)
  | VField o _ _ => VField o 0 VNone
  | _ => v
  end.

Section list_eqb.
Context {A : Type} (eqb : A → A → bool).

Fixpoint list_eqb (l m : list A) : bool :=
  match l, m with
  | [], [] => true
  | x :: l', y :: m' => eqb x y && list_eqb l' m'
  | _, _ => false
  end.
End list_eqb.

(** Structural equality of values. *)
Fixpoint value_eqb (a b : pyval) {struct a} : bool :=
  match a, b with
  | VNone, VNone => true
  | VBool x, VBool y => Bool.eqb x y
  | VInt x, VInt y => Z.eqb x y
  | VStr x, VStr y => String.eqb x y
  | VTuple l, VTuple m => list_eqb value_eqb l m
  | VList l, VList m => list_eqb value_eqb l m
  | VSet l, VSet m => list_eqb value_eqb l m
  | VDict l, VDict m =>
      list_eqb (λ p q, value_eqb p.1 q.1 && value_eqb p.2 q.2) l m
  | VField o f v, VField o' f' v' =>
      Pos.eqb o o' && Z.eqb f f' && value_eqb v v'
  | _, _ => false
  end.

(** Induction over values, with the property available for every item of a
    nested sequence or dictionary. *)
Section pyval_nested_ind.
Variable P : pyval → Prop.
Hypothesis case_None : P VNone.
Hypothesis case_Bool : ∀ b, P (VBool b).
Hypothesis case_Int : ∀ z, P (VInt z).
Hypothesis case_Str : ∀ s, P (VStr s).
Hypothesis case_Tuple : ∀ l, Forall P l → P (VTuple l).
Hypothesis case_List : ∀ l, Forall P l → P (VList l).
Hypothesis case_Set : ∀ l, Forall P l → P (VSet l).
Hypothesis case_Dict :
  ∀ d, Forall (λ kv, P kv.1 ∧ P kv.2) d → P (VDict d).
Hypothesis case_Field : ∀ o f v, P v → P (VField o f v).

Fixpoint pyval_nested_ind (v : pyval) : P v :=
  let items :=
    fix items (l : list pyval) : Forall P l :=
      match l with
      | [] => @List.Forall_nil _ P
      | x :: l' => @List.Forall_cons _ P x l' (pyval_nested_ind x) (items l')
      end in
  let pairs :=
    fix pairs (d : list (pyval * pyval))
      : Forall (λ kv, P kv.1 ∧ P kv.2) d :=
      match d with
      | [] => @List.Forall_nil _ _
      | kv :: d' =>
          @List.Forall_cons _ (λ kv, P kv.1 ∧ P kv.2) kv d'
            (conj (pyval_nested_ind kv.1) (pyval_nested_ind kv.2))
            (pairs d')
      end in
  match v with
  | VNone => case_None
  | VBool b => case_Bool b
  | VInt z => case_Int z
  | VStr s => case_Str s
  | VTuple l => case_Tuple l (items l)
  | VList l => case_List l (items l)
  | VSet l => case_Set l (items l)
  | VDict d => case_Dict d (pairs d)
  | VField o f v' => case_Field o f v' (pyval_nested_ind v')
  end.
End pyval_nested_ind.

(** [a == b] between two hashable values. *)
Definition py_eq (a b : pyval) : bool := value_eqb (py_key a) (py_key b).

(** A set with [v] in it: unchanged when an equal element is present. *)
Definition set_insert (s : list pyval) (v : pyval) : list pyval :=
  if existsb (py_eq v) s then s else s ++ [v].

(** [s.add(v)] on a set. *)
Definition set_add (s : list pyval) (v : pyval) : result (list pyval) :=
  if hashable v then Ok (set_insert s v) else Raise TypeError.

(** [d[k] = v] on a dictionary: an equal key keeps its place and takes the
    new pyval, a new key goes last. *)
Fixpoint dict_update (d : list (pyval * pyval)) (k v : pyval)
  : list (pyval * pyval) :=
  match d with
  | [] => [(k, v)]
  | (k', v') :: d' =>
      if py_eq k' k then (k', v) :: d' else (k', v') :: dict_update d' k v
  end.

Definition dict_setitem (d : list (pyval * pyval)) (k v : pyval)
  : result (list (pyval * pyval)) :=
  if hashable k then Ok (dict_update d k v) else Raise TypeError.

(** [d[k]] read from a dictionary. *)
Definition dict_lookup (d : list (pyval * pyval)) (k : pyval) : option pyval :=
  snd <$> find (λ kv, py_eq kv.1 k) d.

(** [dict((x.field_id, x) for x in fields)] *)
Definition by_field_id (fields : pyval) : result (gmap Z pyval) :=
  let* xs := py_iter fields in
  for_fold (λ m x, let* fid := get_field_id x in Ok (<[fid := x]> m)) ∅ xs.

(** [dict((key(x), x) for x in l)]: a later element replaces an earlier one
    with the same key. *)
Definition dict_of `{Countable K} {A : Type} (key : A → K) (l : list A)
  : gmap K A :=
  foldl (λ m x, <[key x := x]> m) ∅ l.

(** ** The schema classes *)

Module Field.
Record t (T : Type) : Type := mk {
  tag : Z;
  name : string;
  is_required : bool;
  type : T
}.
Arguments mk {T} tag name is_required type.
Arguments tag {T} _.
Arguments name {T} _.
Arguments is_required {T} _.
Arguments type {T} _.
End Field.

(** What a field, argument, return type or container element may hold after
    [resolve_type]: an instance of a subclass of [Type], or an AST node that
    was passed through unresolved (a primitive). *)
Inductive ty : Type :=
| AstNode (node : string)
| TypeBase
| TEnum (name : string) (values : list (string * Z))
| TStruct (name : string) (fields : list (Field.t ty))
| TExc (name : string) (fields : list (Field.t ty))
| TList (type : ty)
| TSet (type : ty)
| TMap (key_type value_type : ty).

(** [isinstance(t, Type)] *)
Definition isinstance_Type (t : ty) : bool :=
  match t with
  | AstNode _ => false
  | _ => true
  end.

(** [Type.parse]: the body is [pass]. *)
Definition Type_parse (value : pyval) : result pyval := Ok VNone.

(** [Enum.names_by_tags] *)
Definition names_by_tags (values : list (string * Z)) : gmap Z string :=
  foldl (λ m nv, <[nv.2 := nv.1]> m) ∅ values.

(** Subscripting a dictionary whose keys are integers with [v]. *)
Definition int_key (v : pyval) : result (option Z) :=
  if hashable v then
    Ok (match py_key v with VInt z => Some z | _ => None end)
  else Raise TypeError.

(** [Enum.parse] *)
Definition Enum_parse (values : list (string * Z)) (value : pyval)
  : result pyval :=
  let* k := int_key value in
  match k ≫= (names_by_tags values !!.) with
  | Some name => Ok (VStr name)
  | None => Raise KeyError
  end.

Section methods.
(** The dynamically dispatched [t.parse(value)]. *)
Variable parse : ty → pyval → result pyval.

(** [if isinstance(t, Type): value = t.parse(value)] *)
Definition decode (t : ty) (value : pyval) : result pyval :=
  if isinstance_Type t then parse t value else Ok value.

(** One iteration of the loop of [Struct.parse]. *)
Definition Struct_parse_field (fields_by_tag : gmap Z pyval)
    (field_def : Field.t ty) : result pyval :=
  let* value :=
    match fields_by_tag !! Field.tag field_def with
    | Some field =>
        let* value := get_value field in
        decode (Field.type field_def) value
    | None => Ok VNone
    end in
  Ok (VTuple [VStr (Field.name field_def); value]).

(** [Struct.parse], inherited by [Exc]. *)
Definition Struct_parse (name : string) (fields : list (Field.t ty))
    (raw : pyval) : result pyval :=
  let* fields_by_tag := by_field_id raw in
  let* struct_fields :=
    for_each (Struct_parse_field fields_by_tag) fields in
  Ok (VTuple [VStr name; VList struct_fields]).

(** [List.parse] *)
Definition List_parse (type : ty) (values : pyval) : result pyval :=
  let* xs := py_iter values in
  let* list_values := for_each (decode type) xs in
  Ok (VList list_values).

(** [Set.parse] *)
Definition Set_parse (type : ty) (values : pyval) : result pyval :=
  let* xs := py_iter values in
  let* set_values :=
    for_fold (λ set_values x,
                let* value := decode type x in set_add set_values value)
             [] xs in
  Ok (VSet set_values).

(** [key, value = item] *)
Definition unpack2 (item : pyval) : result (pyval * pyval) :=
  let* xs := py_iter item in
  match xs with
  | [key; value] => Ok (key, value)
  | _ => Raise ValueError
  end.

(** One iteration of the loop of [Map.parse]. *)
Definition Map_parse_item (key_type value_type : ty)
    (map_values : list (pyval * pyval)) (item : pyval)
  : result (list (pyval * pyval)) :=
  let* kv := unpack2 item in
  let* key := decode key_type kv.1 in
  let* value := decode value_type kv.2 in
  dict_setitem map_values key value.

(** [Map.parse] *)
Definition Map_parse (key_type value_type : ty) (map : pyval)
  : result pyval :=
  let* items := py_iter map in
  let* map_values :=
    for_fold (Map_parse_item key_type value_type) [] items in
  Ok (VDict map_values).
End methods.

(** Method resolution of [t.parse(value)] on the class of [t]. *)
Fixpoint parse (t : ty) (value : pyval) {struct t} : result pyval :=
  match t with
  | AstNode _ => Raise AttributeError
  | TypeBase => Type_parse value
  | TEnum _ values => Enum_parse values value
  | TStruct name fields => Struct_parse parse name fields value
  | TExc name fields => Struct_parse parse name fields value
  | TList type => List_parse parse type value
  | TSet type => Set_parse parse type value
  | TMap key_type value_type => Map_parse parse key_type value_type value
  end.

(** ** Messages, functions and the catalogue *)

(** A framed message: the role marker [msg.type] and the list [msg.args]. *)
Module Msg.
Record t : Type := mk {
  type : string;
  args : list pyval
}.
End Msg.

Module Function.
Record t : Type := mk {
  name : string;
  arguments : list (Field.t ty);
  type : ty;
  throws : list (Field.t ty)
}.

(** The two dictionaries [__init__] derives from the lists. *)
Definition arguments_by_tags (self : t) : gmap Z (Field.t ty) :=
  dict_of Field.tag (arguments self).

Definition throws_by_tags (self : t) : gmap Z (Field.t ty) :=
  dict_of Field.tag (throws self).

(** One iteration of the loop of the [call] branch. *)
Definition get_args_arg (args_by_tag : gmap Z pyval) (arg : Field.t ty)
  : result pyval :=
  let* value := get_value (default VNone (args_by_tag !! Field.tag arg)) in
  let* value := decode parse (Field.type arg) value in
  Ok (VTuple [VStr (Field.name arg); value]).

(** The [call] branch. *)
Definition get_args_call (self : t) (msg : Msg.t) : result pyval :=
  let* args_by_tag := by_field_id (VList (Msg.args msg)) in
  let* args := for_each (get_args_arg args_by_tag) (arguments self) in
  Ok (VList args).

(** The [reply] branch when [len(msg.args) > 0]; [first] is
    [msg.args[0]]. *)
Definition get_args_reply (self : t) (first : pyval) : result pyval :=
  let* field_id := get_field_id first in
  if field_id =? 0 then
    let* value := get_value first in
    decode parse (type self) value
  else
    let* value := get_value first in
    let* throw :=
      match throws_by_tags self !! field_id with
      | Some throw => Ok throw
      | None => Raise KeyError
      end in
    decode parse (Field.type throw) value.

(** The body of the [try] block: [Some v] when a [return v] inside it is
    reached, [None] when control falls out of the block. *)
Definition get_args_try (self : t) (msg : Msg.t) : result (option pyval) :=
  if String.eqb (Msg.type msg) "call" then
    let* args := get_args_call self msg in Ok (Some args)
  else if String.eqb (Msg.type msg) "reply" then
    match Msg.args msg with
    | first :: _ => let* value := get_args_reply self first in Ok (Some value)
    | [] => Ok None
    end
  else Ok None.

(** [Function.get_args]: the handler prints the traceback and control
    continues at the final [return msg.args]. *)
Definition get_args (self : t) (msg : Msg.t) : result pyval :=
  let* returned := try_except (get_args_try self msg) (λ _, Ok None) in
  match returned with
  | Some value => Ok value
  | None => Ok (VList (Msg.args msg))
  end.
End Function.

Module Idl.
Record t : Type := mk {
  functions : list Function.t
}.

(** The dictionary [__init__] derives from the list. *)
Definition functions_by_name (self : t) : gmap string Function.t :=
  dict_of Function.name (functions self).

(** [Idl.get_function] *)
Definition get_function (self : t) (name : string) : option Function.t :=
  functions_by_name self !! name.
End Idl.

(** ** Notions the properties are stated with *)

(** Is [x] an entry of a wire-level struct? *)
Definition is_field (x : pyval) : bool :=
  match x with
  | VField _ _ _ => true
  | _ => false
  end.

(** Does the entry [x] carry [tag]? *)
Definition has_tag (tag : Z) (x : pyval) : bool :=
  match x with
  | VField _ field_id _ => field_id =? tag
  | _ => false
  end.

(** The last entry of [raw] that carries [tag]. *)
Definition last_with_tag (tag : Z) (raw : list pyval) : option pyval :=
  last (filter (λ x, has_tag tag x) raw).

(** The [value] attribute of the last entry of [raw] that carries [tag]. *)
Definition tagged_value (tag : Z) (raw : list pyval) : option pyval :=
  match last_with_tag tag raw with
  | Some (VField _ _ v) => Some v
  | _ => None
  end.

(** The pair a struct decode produces for [field_def], read off the raw
    entries directly: the value of the last entry with the field's tag,
    decoded through the field's type, or [None] when there is no such
    entry. *)
Definition field_pair_ref (raw : list pyval) (field_def : Field.t ty)
  : result pyval :=
  let* value :=
    match tagged_value (Field.tag field_def) raw with
    | Some r => decode parse (Field.type field_def) r
    | None => Ok VNone
    end in
  Ok (VTuple [VStr (Field.name field_def); value]).

(** Struct decode read off the raw entries directly. *)
Definition struct_decode_ref (name : string) (fields : list (Field.t ty))
    (raw : list pyval) : result pyval :=
  let* struct_fields := for_each (field_pair_ref raw) fields in
  Ok (VTuple [VStr name; VList struct_fields]).

(** The pair [(name, value)] of a declared field or argument. *)
Definition named (field_def : Field.t ty) (value : pyval) : pyval :=
  VTuple [VStr (Field.name field_def); value].

(** The number of distinct values in [vs], equal values counted once. *)
Fixpoint count_distinct (vs : list pyval) : nat :=
  match vs with
  | [] => 0%nat
  | v :: vs' =>
      if existsb (py_eq v) vs' then count_distinct vs'
      else S (count_distinct vs')
  end.

(** ** A sample schema

    The scenario of the specification: [exception Err { 1: string message }]
    and [service S { i32 add(1: i32 a, 2: i32 b) throws (1: Err e) }],
    together with an enumeration and a few functions used below. *)
Module Sample.
Definition i32 : ty := AstNode "i32".
Definition str : ty := AstNode "string".

Definition Err : ty := TExc "Err" [Field.mk 1 "message" false str].

Definition Color : ty := TEnum "Color" [("RED", 1); ("GREEN", 2)].

Definition add : Function.t :=
  Function.mk "add"
    [Field.mk 1 "a" true i32; Field.mk 2 "b" true i32] i32
    [Field.mk 1 "e" false Err].

(** A second function named [add], declared later. *)
Definition add' : Function.t :=
  Function.mk "add" [Field.mk 1 "xs" true (TList i32)] i32 [].

Definition paint : Function.t :=
  Function.mk "paint" [Field.mk 1 "color" true Color] Color [].

Definition ping : Function.t :=
  Function.mk "ping" [] (AstNode "void") [].

Definition Point : ty :=
  TStruct "Point" [Field.mk 1 "x" true i32; Field.mk 2 "color" false Color].
End Sample.

(** The tags the entries of [raw] carry, in order. *)
Definition entry_tags (raw : list pyval) : list Z :=
  omap (λ x, match x with VField _ field_id _ => Some field_id | _ => None end)
       raw.

(** ** The IDL syntax tree *)

(** Modelled from the spec: the syntax tree is built by the external grammar
    parser, whose node classes are not part of [idl.py].  The nodes are given
    with the attributes [parse_idl_file] reads from them, as section 6 of
    the specification lists them; a name node is represented by its
    [value].  [Base] stands for every type node that is none of
    [Identifier], [List], [Set] and [Map], and [Other] for every body part
    that [parse_body] does not dispatch on. *)
Module ast.
Inductive type : Type :=
| Identifier (value : string)
| List (value_type : type)
| Set_ (value_type : type)
| Map (key_type value_type : type)
| Base (node : string).

Record Field : Type := mkField {
  field_tag : Z;
  field_name : string;
  field_required : bool;
  field_type : type
}.

Record EnumDef : Type := mkEnumDef {
  enum_name : string;
  enum_tag : Z
}.

Record Function : Type := mkFunction {
  function_name : string;
  function_arguments : list Field;
  function_type : type;
  function_throws : list Field
}.

Inductive body_part : Type :=
| Typedef (name : string) (type : type)
| Enum (name : string) (values : list EnumDef)
| Struct (name : string) (fields : list Field)
| Exception_ (name : string) (fields : list Field)
| Service (functions : list Function)
| Other.

Record Thrift : Type := mkThrift {
  includes : list string;
  body : list body_part
}.
End ast.

(** ** Building the catalogue *)

(** What [types_by_name] holds under a name: an instance of [TypeDef], or an
    instance of [Enum], [Struct] or [Exc]. *)
Inductive named_type : Type :=
| TypeDef (name : string) (type : ty)
| IsType (t : ty).

(** The two variables [parse_idl_file] builds up. *)
Record builder : Type := mkBuilder {
  functions : list Function.t;
  types_by_name : gmap string named_type
}.

(** [resolve_type].  The type of a [TypeDef] was resolved when the typedef
    was read, so the recursive call on it meets none of the [isinstance]
    tests and returns it. *)
Fixpoint resolve_type (types_by_name : gmap string named_type)
    (type : ast.type) : result ty :=
  match type with
  | ast.Identifier value =>
      match types_by_name !! value with
      | None => Raise KeyError
      | Some (TypeDef _ type) => Ok type
      | Some (IsType resolved_type) => Ok resolved_type
      end
  | ast.List value_type =>
      let* type := resolve_type types_by_name value_type in Ok (TList type)
  | ast.Set_ value_type =>
      let* type := resolve_type types_by_name value_type in Ok (TSet type)
  | ast.Map key_type value_type =>
      let* key_type := resolve_type types_by_name key_type in
      let* value_type := resolve_type types_by_name value_type in
      Ok (TMap key_type value_type)
  | ast.Base node => Ok (AstNode node)
  end.

(** [Field(tag = ..., name = ..., is_required = ..., type = resolve_type(...))] *)
Definition resolve_field (types_by_name : gmap string named_type)
    (is_required : ast.Field → bool) (field_ast : ast.Field)
  : result (Field.t ty) :=
  let* type := resolve_type types_by_name (ast.field_type field_ast) in
  Ok (Field.mk (ast.field_tag field_ast) (ast.field_name field_ast)
        (is_required field_ast) type).

(** The body of the loop over the functions of a service. *)
Definition parse_function (types_by_name : gmap string named_type)
    (function_ast : ast.Function) : result Function.t :=
  let* arguments :=
    for_each (resolve_field types_by_name (λ _, true))
      (ast.function_arguments function_ast) in
  let* throws :=
    for_each (resolve_field types_by_name (λ _, false))
      (ast.function_throws function_ast) in
  let* type := resolve_type types_by_name (ast.function_type function_ast) in
  Ok (Function.mk (ast.function_name function_ast) arguments type throws).

(** The body of the loop of [parse_body]. *)
Definition parse_body_part (st : builder) (body_part : ast.body_part)
  : result builder :=
  match body_part with
  | ast.Typedef name type =>
      let* type := resolve_type (types_by_name st) type in
      Ok (mkBuilder (functions st)
            (<[name := TypeDef name type]> (types_by_name st)))
  | ast.Enum name values =>
      let values := (λ x, (ast.enum_name x, ast.enum_tag x)) <$> values in
      Ok (mkBuilder (functions st)
            (<[name := IsType (TEnum name values)]> (types_by_name st)))
  | ast.Struct name fields =>
      let* fields :=
        for_each (resolve_field (types_by_name st) ast.field_required)
          fields in
      Ok (mkBuilder (functions st)
            (<[name := IsType (TStruct name fields)]> (types_by_name st)))
  | ast.Exception_ name fields =>
      let* fields :=
        for_each (resolve_field (types_by_name st) ast.field_required)
          fields in
      Ok (mkBuilder (functions st)
            (<[name := IsType (TExc name fields)]> (types_by_name st)))
  | ast.Service service_functions =>
      let* functions :=
        for_fold (λ functions function_ast,
                    let* function :=
                      parse_function (types_by_name st) function_ast in
                    Ok (functions ++ [function]))
          (functions st) service_functions in
      Ok (mkBuilder functions (types_by_name st))
  | ast.Other => Ok st
  end.

(** [parse_body] *)
Definition parse_body (st : builder) (body : list ast.body_part)
  : result builder :=
  for_fold parse_body_part st body.

(** How an attempt to build the catalogue ends: with the builder's state,
    with an exception raised while resolving, with a file that could not be
    read or parsed, or with the nesting of includes not exhausted within the
    given depth. *)
Inductive outcome (A : Type) : Type :=
| Built (a : A)
| Failed (e : exn)
| Unreadable (path : string)
| TooDeep.
Arguments Built {A} a.
Arguments Failed {A} e.
Arguments Unreadable {A} path.
Arguments TooDeep {A}.

Section parse_file.
(** [Parser().parse(open(path).read())]: the tree of the file at [path], or
    nothing when reading or parsing it raises. *)
Variable read : string → option ast.Thrift.
(** [os.path.join(os.path.dirname(path), include.path.value)] *)
Variable include_path : string → string → string.

(** The loop of [parse_file] over the includes of the file at [path];
    [parse_file] is the recursive call. *)
Fixpoint parse_includes (parse_file : string → builder → outcome builder)
    (path : string) (includes : list string) (st : builder)
  : outcome builder :=
  match includes with
  | [] => Built st
  | include :: includes' =>
      match parse_file (include_path path include) st with
      | Built st' => parse_includes parse_file path includes' st'
      | stopped => stopped
      end
  end.

(** [parse_file], with [depth] bounding the nesting of its calls. *)
Fixpoint parse_file (depth : nat) (path : string) (st : builder)
  : outcome builder :=
  match depth with
  | O => TooDeep
  | S depth' =>
      match read path with
      | None => Unreadable path
      | Some tree =>
          match parse_includes (parse_file depth') path
                  (ast.includes tree) st with
          | Built st' =>
              match parse_body st' (ast.body tree) with
              | Ok st'' => Built st''
              | Raise e => Failed e
              end
          | stopped => stopped
          end
      end
  end.

(** [parse_idl_file] *)
Definition parse_idl_file (depth : nat) (path : string) : outcome Idl.t :=
  match parse_file depth path (mkBuilder [] ∅) with
  | Built st => Built (Idl.mk (functions st))
  | Failed e => Failed e
  | Unreadable p => Unreadable p
  | TooDeep => TooDeep
  end.
End parse_file.

(** The names a type node refers to. *)
Fixpoint identifiers (type : ast.type) : list string :=
  match type with
  | ast.Identifier value => [value]
  | ast.List value_type | ast.Set_ value_type => identifiers value_type
  | ast.Map key_type value_type =>
      identifiers key_type ++ identifiers value_type
  | ast.Base _ => []
  end.

(** The names of the functions the services of a body declare, in order. *)
Definition declared_functions (body : list ast.body_part) : list string :=
  body ≫= λ body_part,
    match body_part with
    | ast.Service service_functions =>
        ast.function_name <$> service_functions
    | _ => []
    end.

(** The typedefs [typedef type n1; typedef n1 n2; typedef n2 n3; ...]. *)
Fixpoint alias_chain (type : ast.type) (names : list string)
  : list ast.body_part :=
  match names with
  | [] => []
  | name :: names' =>
      ast.Typedef name type :: alias_chain (ast.Identifier name) names'
  end.

(** A schema in syntax-tree form: the scenario of the specification, with
    two aliases. *)
Module SampleTree.
Definition i32 : ast.type := ast.Base "i32".

Definition body : list ast.body_part :=
  [ast.Exception_ "Err" [ast.mkField 1 "message" false (ast.Base "string")];
   ast.Typedef "Id" i32;
   ast.Typedef "Ids" (ast.List (ast.Identifier "Id"));
   ast.Service
     [ast.mkFunction "add"
        [ast.mkField 1 "a" false i32;
         ast.mkField 2 "b" false (ast.Identifier "Ids")]
        i32
        [ast.mkField 1 "e" true (ast.Identifier "Err")];
      ast.mkFunction "ping" [] (ast.Base "void") []]].

(** A struct with a field of its own type. *)
Definition Tree : ast.body_part :=
  ast.Struct "Tree"
    [ast.mkField 1 "value" true i32;
     ast.mkField 2 "children" false (ast.List (ast.Identifier "Tree"))].

(** Two files, each including the other first. *)
Definition read (path : string) : option ast.Thrift :=
  if String.eqb path "a.thrift" then Some (ast.mkThrift ["b.thrift"] body)
  else if String.eqb path "b.thrift" then Some (ast.mkThrift ["a.thrift"] [])
  else if String.eqb path "s.thrift" then Some (ast.mkThrift [] body)
  else None.

Definition include_path (path include : string) : string := include.
End SampleTree.

Section declared_in_file.
Variable read : string → option ast.Thrift.
Variable include_path : string → string → string.

(** The names of the functions declared in the file at [path] and in the
    files it includes, down to [depth] levels of nesting: for each include
    in turn the names of that file, then the names the file's own services
    declare. *)
Fixpoint declared_in_file (depth : nat) (path : string) : list string :=
  match depth with
  | O => []
  | S depth' =>
      match read path with
      | None => []
      | Some tree =>
          (ast.includes tree ≫= λ include,
             declared_in_file depth' (include_path path include)) ++
          declared_functions (ast.body tree)
      end
  end.
End declared_in_file.

(** Two files: [main.thrift] includes [shared.thrift], whose exception its
    service throws. *)
Module SampleFiles.
Definition shared : ast.Thrift :=
  ast.mkThrift []
    [ast.Exception_ "Err" [ast.mkField 1 "message" false (ast.Base "string")];
     ast.Service [ast.mkFunction "ping" [] (ast.Base "void") []]].

Definition add : ast.Function :=
  ast.mkFunction "add"
    [ast.mkField 1 "a" false SampleTree.i32;
     ast.mkField 2 "b" false SampleTree.i32]
    SampleTree.i32
    [ast.mkField 1 "e" true (ast.Identifier "Err")].

Definition main : ast.Thrift :=
  ast.mkThrift ["shared.thrift"] [ast.Service [add]].

Definition read (path : string) : option ast.Thrift :=
  if String.eqb path "main.thrift" then Some main
  else if String.eqb path "shared.thrift" then Some shared
  else None.
End SampleFiles.

(** * Properties *)

(** ** Dictionaries built from a list *)

(** The entry a dictionary built by successive insertion holds for [k] comes
    from the last element of the list that carries the key [k]. *)
Lemma foldl_insert_lookup `{Countable K} {V A : Type}
    (key : A → K) (val : A → V) (l : list A) (m : gmap K V) (k : K) :
  foldl (λ m x, <[key x := val x]> m) m l !! k =
  match last (filter (λ x, key x = k) l) with
  | Some x => Some (val x)
  | None => m !! k
  end.
Proof.
  revert m. induction l as [|x l IH]; intros m; simpl; [done|].
  rewrite IH, filter_cons. destruct (decide (key x = k)) as [Hk|Hk].
  - destruct (filter _ l) as [|y r] eqn:E; simpl.
    + subst k. apply lookup_insert_eq.
    + destruct (last (y :: r)) eqn:E2; [done|]. by apply last_None in E2.
  - destruct (last _); [done|]. by rewrite lookup_insert_ne.
Qed.

Lemma dict_of_lookup `{Countable K} {A : Type} (key : A → K) (l : list A) k :
  dict_of key l !! k = last (filter (λ x, key x = k) l).
Proof.
  unfold dict_of. rewrite (foldl_insert_lookup key id).
  destruct (last _); [done|]. apply lookup_empty.
Qed.

Lemma filter_nil_not_elem `{Countable K} {A : Type} (key : A → K) l k :
  k ∉ key <$> l → filter (λ x, key x = k) l = [].
Proof.
  intros Hk. induction l as [|x l IH]; [done|].
  rewrite fmap_cons, not_elem_of_cons in Hk. destruct Hk as [Hx Hl].
  rewrite filter_cons, decide_False by done. auto.
Qed.


Lemma filter_key_NoDup `{Countable K} {A : Type} (key : A → K) l x :
  NoDup (key <$> l) → x ∈ l → filter (λ y, key y = key x) l = [x].
Proof.
  induction l as [|y l IH]; intros Hnd Hx; [by apply elem_of_nil in Hx|].
  rewrite fmap_cons in Hnd. apply NoDup_cons in Hnd as [Hy Hnd].
  rewrite filter_cons. apply elem_of_cons in Hx as [->|Hx].
  - rewrite decide_True by done. f_equal. by apply filter_nil_not_elem.
  - rewrite decide_False; [by apply IH|].
    intros Heq. apply Hy. rewrite Heq. by apply list_elem_of_fmap_2.
Qed.

Lemma names_by_tags_lookup values tag :
  names_by_tags values !! tag = fst <$> last (filter (λ nv, nv.2 = tag) values).
Proof.
  unfold names_by_tags. rewrite (foldl_insert_lookup snd fst).
  destruct (last _); [done|]. apply lookup_empty.
Qed.

(** ** The correlator never raises *)

(** C1: [get_args] returns for every function and every message, and what it
    returns is the decoded argument list of a call, the decoded return or
    exception value of a reply, or the message's own [args]. *)
Theorem get_args_never_raises (self : Function.t) (msg : Msg.t) :
  ∃ v, Function.get_args self msg = Ok v ∧
       ((Msg.type msg = "call" ∧ Function.get_args_call self msg = Ok v) ∨
        (Msg.type msg = "reply" ∧
         ∃ first rest, Msg.args msg = first :: rest ∧
                       Function.get_args_reply self first = Ok v) ∨
        v = VList (Msg.args msg)).
Proof.
  unfold Function.get_args, Function.get_args_try.
  destruct (String.eqb_spec (Msg.type msg) "call") as [Hc|Hc].
  - destruct (Function.get_args_call self msg) as [v|e] eqn:E; simpl; eauto 6.
  - destruct (String.eqb_spec (Msg.type msg) "reply") as [Hr|Hr]; simpl; [|eauto].
    destruct (Msg.args msg) as [|first rest] eqn:Ea; simpl; [eauto|].
    destruct (Function.get_args_reply self first) as [v|e] eqn:E; simpl;
      eauto 10.
Qed.

(** C9: a message whose role marker is neither [call] nor [reply] comes back
    as its own [args]; the [try] block is left without a [return], so no
    decoder is entered. *)
Theorem get_args_other_role (self : Function.t) (msg : Msg.t) :
  Msg.type msg ≠ "call" → Msg.type msg ≠ "reply" →
  Function.get_args_try self msg = Ok None ∧
  Function.get_args self msg = Ok (VList (Msg.args msg)).
Proof.
  intros Hc Hr. unfold Function.get_args, Function.get_args_try.
  apply String.eqb_neq in Hc, Hr. by rewrite Hc, Hr.
Qed.

Lemma get_args_other_role_witness :
  let msg := Msg.mk "oneway" [VField 1 1 (VInt 3)] in
  Msg.type msg ≠ "call" ∧ Msg.type msg ≠ "reply" ∧
  Function.get_args_try Sample.ping msg = Ok None ∧
  Function.get_args Sample.ping msg = Ok (VList [VField 1 1 (VInt 3)]).
Proof.
  intros msg.
  assert (Hc : Msg.type msg ≠ "call") by (simpl; congruence).
  assert (Hr : Msg.type msg ≠ "reply") by (simpl; congruence).
  split; [exact Hc|]. split; [exact Hr|].
  exact (get_args_other_role Sample.ping msg Hc Hr).
Defined.

(** ** The catalogue *)

(** C8: of two functions with the same name the one later in the list is
    the one [get_function] returns, and a name that no function of the list
    carries gives [None]. *)
Theorem get_function_last_wins (functions : list Function.t) :
  (∀ l1 f1 l2 f2 l3,
     functions = l1 ++ f1 :: l2 ++ f2 :: l3 →
     Function.name f1 = Function.name f2 →
     Function.name f2 ∉ Function.name <$> l3 →
     Idl.get_function (Idl.mk functions) (Function.name f1) = Some f2) ∧
  (∀ name,
     name ∉ Function.name <$> functions →
     Idl.get_function (Idl.mk functions) name = None).
Proof.
  unfold Idl.get_function, Idl.functions_by_name; simpl. split.
  - intros l1 f1 l2 f2 l3 -> Hn Hl3. rewrite dict_of_lookup, Hn.
    rewrite filter_app, filter_cons, decide_True by done.
    rewrite filter_app, filter_cons, decide_True by done.
    rewrite (filter_nil_not_elem Function.name l3) by done.
    by rewrite last_app, app_comm_cons, last_snoc.
  - intros name Hname. rewrite dict_of_lookup.
    by rewrite filter_nil_not_elem.
Qed.

Lemma get_function_last_wins_witness :
  Idl.get_function (Idl.mk [Sample.add; Sample.ping; Sample.add']) "add"
    = Some Sample.add' ∧
  Idl.get_function (Idl.mk [Sample.add; Sample.ping; Sample.add']) "sub"
    = None.
Proof.
  split.
  - apply (proj1 (get_function_last_wins
                    [Sample.add; Sample.ping; Sample.add'])
             [] Sample.add [Sample.ping] Sample.add' []);
      [reflexivity | reflexivity | apply not_elem_of_nil].
  - apply (proj2 (get_function_last_wins
                    [Sample.add; Sample.ping; Sample.add']) "sub").
    simpl. rewrite !not_elem_of_cons.
    repeat split; try congruence. apply not_elem_of_nil.
Defined.

(** ** Enumerations *)

(** C5: when the declared tags are pairwise distinct, decoding the tag of a
    declared label gives that label; decoding an integer that is no declared
    tag raises [KeyError]. *)
Theorem enum_parse_left_inverse (name : string) (values : list (string * Z)) :
  NoDup values.*2 →
  (∀ label tag, (label, tag) ∈ values →
     parse (TEnum name values) (VInt tag) = Ok (VStr label)) ∧
  (∀ z, z ∉ values.*2 → parse (TEnum name values) (VInt z) = Raise KeyError).
Proof.
  intros Hnd. simpl. unfold Enum_parse. simpl. split.
  - intros label tag Hin. rewrite names_by_tags_lookup.
    by rewrite (filter_key_NoDup snd values (label, tag)).
  - intros z Hz. rewrite names_by_tags_lookup.
    by rewrite (filter_nil_not_elem snd).
Qed.

Lemma enum_parse_left_inverse_witness :
  NoDup [("RED", 1); ("GREEN", 2)].*2 ∧
  parse Sample.Color (VInt 2) = Ok (VStr "GREEN") ∧
  parse Sample.Color (VInt 3) = Raise KeyError.
Proof.
  assert (Hnd : NoDup [("RED", 1); ("GREEN", 2)].*2).
  { simpl. repeat constructor; rewrite ?not_elem_of_cons;
      repeat split; try lia; apply not_elem_of_nil. }
  split; [exact Hnd|]. split.
  - apply (proj1 (enum_parse_left_inverse "Color" _ Hnd) "GREEN" 2).
    simpl. rewrite !elem_of_cons. auto.
  - apply (proj2 (enum_parse_left_inverse "Color" _ Hnd) 3).
    simpl. rewrite !not_elem_of_cons.
    repeat split; try lia. apply not_elem_of_nil.
Defined.



(** ** Equality of values *)

Lemma list_eqb_eq {A : Type} (eqb : A → A → bool) (l : list A) :
  Forall (λ x, ∀ y, eqb x y = true ↔ x = y) l →
  ∀ m, list_eqb eqb l m = true ↔ l = m.
Proof.
  induction 1 as [|x l Hx _ IH]; intros [|y m]; simpl; try (split; congruence).
  rewrite andb_true_iff, Hx, IH. split; [intros [-> ->]; done|].
  intros [= -> ->]; done.
Qed.

Lemma value_eqb_eq (a b : pyval) : value_eqb a b = true ↔ a = b.
Proof.
  revert b. induction a as [| | | |l IH|l IH|l IH|d IH|o f v IH]
    using pyval_nested_ind; intros [];
    simpl; try (split; congruence).
  - rewrite Bool.eqb_true_iff. split; congruence.
  - rewrite Z.eqb_eq. split; congruence.
  - rewrite String.eqb_eq. split; congruence.
  - rewrite (list_eqb_eq _ _ IH). split; congruence.
  - rewrite (list_eqb_eq _ _ IH). split; congruence.
  - rewrite (list_eqb_eq _ _ IH). split; congruence.
  - rewrite list_eqb_eq; [split; congruence|].
    eapply Forall_impl; [exact IH|]. intros [k v] [Hk Hv] [k' v']; simpl in *.
    rewrite andb_true_iff, Hk, Hv. split; [intros [-> ->]; done|].
    intros [= -> ->]; done.
  - rewrite !andb_true_iff, Pos.eqb_eq, Z.eqb_eq, IH.
    split; [intros [[-> ->] ->]; done|]. intros [= -> -> ->]; done.
Qed.

Lemma py_eq_key (a b : pyval) : py_eq a b = true ↔ py_key a = py_key b.
Proof. apply value_eqb_eq. Qed.

Lemma existsb_py_eq (v : pyval) (s : list pyval) :
  existsb (py_eq v) s = true ↔ py_key v ∈ py_key <$> s.
Proof.
  rewrite existsb_exists, list_elem_of_fmap. split.
  - intros (x & Hx & Heq). exists x. split; [by apply py_eq_key|].
    by apply list_elem_of_In.
  - intros (x & Heq & Hx). exists x. split; [by apply list_elem_of_In|].
    by apply py_eq_key.
Qed.

(** ** Loops that do not raise *)

Lemma for_each_Forall2 {A B : Type} (f : A → result B) (l : list A)
    (ys : list B) :
  for_each f l = Ok ys ↔ Forall2 (λ x y, f x = Ok y) l ys.
Proof.
  revert ys. induction l as [|x l IH]; intros ys; simpl.
  - split; [intros [= <-]; constructor|]. by inversion 1.
  - destruct (f x) as [y|e] eqn:Ef; simpl.
    + destruct (for_each f l) as [ys'|e] eqn:El; simpl.
      * split.
        -- intros [= <-]. constructor; [done|]. by apply IH.
        -- inversion 1 as [|? y' ? ys'' Hy Hys]; subst.
           apply IH in Hys. congruence.
      * split; [done|]. inversion 1 as [|? y' ? ys'' Hy Hys]; subst.
        apply IH in Hys. congruence.
    + split; [done|]. inversion 1; congruence.
Qed.

(** ** Sets *)

Lemma set_parse_fold (type : ty) (xs vs : list pyval) (s : list pyval) :
  Forall2 (λ x v, decode parse type x = Ok v) xs vs →
  Forall (λ v, hashable v = true) vs →
  for_fold (λ set_values x,
              let* value := decode parse type x in set_add set_values value)
    s xs = Ok (foldl set_insert s vs).
Proof.
  intros Hdec. revert s.
  induction Hdec as [|x v xs vs Hx _ IH]; intros s Hh; simpl; [done|].
  apply Forall_cons in Hh as [Hv Hh].
  rewrite Hx. simpl. unfold set_add. rewrite Hv. simpl. by apply IH.
Qed.

Lemma set_insert_keys (s : list pyval) (v : pyval) :
  NoDup (py_key <$> s) →
  NoDup (py_key <$> set_insert s v) ∧
  (∀ k, k ∈ py_key <$> set_insert s v ↔ k ∈ py_key <$> s ∨ k = py_key v) ∧
  (∀ a, a ∈ set_insert s v → a ∈ s ∨ a = v).
Proof.
  intros Hnd. unfold set_insert.
  destruct (existsb (py_eq v) s) eqn:E.
  - apply existsb_py_eq in E. split; [done|]. split; [|auto].
    intros k. split; [auto|]. by intros [?| ->].
  - assert (Hnot : py_key v ∉ py_key <$> s).
    { intros Hin. apply existsb_py_eq in Hin. congruence. }
    rewrite fmap_app. simpl. split; [|split].
    + apply NoDup_app. split; [done|]. split; [|apply NoDup_singleton].
      intros k Hk ->%list_elem_of_singleton. done.
    + intros k. by rewrite elem_of_app, list_elem_of_singleton.
    + intros a. by rewrite elem_of_app, list_elem_of_singleton.
Qed.

Lemma foldl_set_insert_keys (vs s : list pyval) :
  NoDup (py_key <$> s) →
  NoDup (py_key <$> foldl set_insert s vs) ∧
  (∀ k, k ∈ py_key <$> foldl set_insert s vs ↔
        k ∈ py_key <$> s ∨ k ∈ py_key <$> vs) ∧
  (∀ a, a ∈ foldl set_insert s vs → a ∈ s ∨ a ∈ vs).
Proof.
  revert s. induction vs as [|v vs IH]; intros s Hnd; simpl.
  - split; [done|]. split; [|auto]. intros k. rewrite elem_of_nil. tauto.
  - destruct (set_insert_keys s v Hnd) as (Hnd' & Hk' & Ha').
    destruct (IH _ Hnd') as (Hnd'' & Hk'' & Ha''). split; [done|]. split.
    + intros k. rewrite Hk'', Hk', elem_of_cons. tauto.
    + intros a Ha. rewrite elem_of_cons.
      destruct (Ha'' a Ha) as [Hs|?]; [|tauto].
      destruct (Ha' a Hs); tauto.
Qed.

(** [count_distinct] is the size of any duplicate-free list of the equality
    classes present in [vs]. *)
Lemma count_distinct_keys (vs : list pyval) (ks : list pyval) :
  NoDup ks → (∀ k, k ∈ ks ↔ k ∈ py_key <$> vs) →
  length ks = count_distinct vs.
Proof.
  revert ks. induction vs as [|v vs IH]; intros ks Hnd Hks; simpl.
  - destruct ks as [|k ks]; [done|].
    exfalso. eapply not_elem_of_nil, Hks. by left.
  - destruct (existsb (py_eq v) vs) eqn:E.
    + apply existsb_py_eq in E. apply IH; [done|].
      intros k. rewrite Hks, fmap_cons, elem_of_cons.
      split; [intros [->|?]; done|auto].
    + assert (Hnot : py_key v ∉ py_key <$> vs).
      { intros Hin. apply existsb_py_eq in Hin. congruence. }
      assert (Hin : py_key v ∈ ks) by (apply Hks; rewrite fmap_cons; by left).
      apply list_elem_of_split in Hin as (k1 & k2 & ->).
      rewrite length_app. simpl.
      rewrite <- (IH (k1 ++ k2)), length_app; [lia| |].
      * apply NoDup_app in Hnd as (H1 & H2 & H3).
        apply NoDup_cons in H3 as [H3 H4].
        apply NoDup_app. split; [done|]. split; [|done].
        intros k Hk Hk2. apply (H2 k Hk). by right.
      * intros k. 
        assert (Hperm : k1 ++ py_key v :: k2 ≡ₚ py_key v :: (k1 ++ k2))
          by (symmetry; apply Permutation_middle).
        specialize (Hks k). rewrite Hperm, fmap_cons, !elem_of_cons in Hks.
        rewrite Hperm in Hnd. apply NoDup_cons in Hnd as [Hv _].
        split.
        -- intros Hk. destruct Hks as [Hks _].
           destruct (Hks (or_intror Hk)) as [->|?]; done.
        -- intros Hk. destruct Hks as [_ Hks].
           destruct (Hks (or_intror Hk)) as [->|?]; done.
Qed.

(** X29: when every element decodes to a hashable value, [Set.parse]
    returns a set holding one element per distinct decoded value: its
    size is the number of distinct decoded values, no two of its elements
    are equal, and it holds an equal of every decoded value and nothing
    else. *)
Theorem set_parse_distinct (type : ty) (xs vs : list pyval) :
  Forall2 (λ x v, decode parse type x = Ok v) xs vs →
  Forall (λ v, hashable v = true) vs →
  ∃ s, parse (TSet type) (VList xs) = Ok (VSet s) ∧
       length s = count_distinct vs ∧
       (∀ i j a b, s !! i = Some a → s !! j = Some b →
                   py_eq a b = true → i = j) ∧
       (∀ v, v ∈ vs → existsb (py_eq v) s = true) ∧
       (∀ a, a ∈ s → a ∈ vs).
Proof.
  intros Hdec Hh. exists (foldl set_insert [] vs).
  destruct (foldl_set_insert_keys vs []) as (Hnd & Hk & Ha);
    [apply NoDup_nil_2|].
  split; [|split; [|split; [|split]]].
  - simpl. unfold Set_parse. simpl.
    by rewrite (set_parse_fold type xs vs [] Hdec Hh).
  - rewrite <- (length_fmap py_key). apply count_distinct_keys; [done|].
    intros k. rewrite Hk, fmap_nil, elem_of_nil. tauto.
  - intros i j a b Hi Hj Hab. apply py_eq_key in Hab.
    eapply NoDup_lookup; [exact Hnd| |].
    + rewrite list_lookup_fmap, Hi. reflexivity.
    + rewrite list_lookup_fmap, Hj, Hab. reflexivity.
  - intros v Hv. apply existsb_py_eq, Hk. right.
    by apply list_elem_of_fmap_2.
  - intros a Has. destruct (Ha a Has) as [Hnil|?]; [|done].
    by apply elem_of_nil in Hnil.
Qed.

Lemma set_parse_distinct_witness :
  let xs := [VInt 1; VBool true; VInt 2; VInt 1] in
  Forall2 (λ x v, decode parse Sample.i32 x = Ok v) xs xs ∧
  Forall (λ v, hashable v = true) xs ∧
  ∃ s, parse (TSet Sample.i32) (VList xs) = Ok (VSet s) ∧
       length s = count_distinct xs ∧
       (∀ i j a b, s !! i = Some a → s !! j = Some b →
                   py_eq a b = true → i = j) ∧
       (∀ v, v ∈ xs → existsb (py_eq v) s = true) ∧
       (∀ a, a ∈ s → a ∈ xs).
Proof.
  intros xs.
  assert (Hdec : Forall2 (λ x v, decode parse Sample.i32 x = Ok v) xs xs)
    by (repeat constructor).
  assert (Hh : Forall (λ v, hashable v = true) xs) by (repeat constructor).
  split; [exact Hdec|]. split; [exact Hh|].
  exact (set_parse_distinct Sample.i32 xs xs Hdec Hh).
Defined.

(** C7: the code breaks the claim on a [set<list<i32>>].  The two elements
    of the input decode, to two equal lists, so there is one distinct
    decoded value; but a list cannot be added to a set, so [Set.parse]
    raises [TypeError] and produces no collection. *)
Lemma set_parse_unhashable_element :
  let xs := [VList [VInt 1]; VList [VInt 1]] in
  for_each (decode parse (TList Sample.i32)) xs = Ok xs ∧
  parse (TSet (TList Sample.i32)) (VList xs) = Raise TypeError ∧
  ¬ ∃ s, parse (TSet (TList Sample.i32)) (VList xs) = Ok (VSet s).
Proof.
  split; [reflexivity|]. split; [reflexivity|]. intros [s Hs]. discriminate Hs.
Qed.

(** ** Maps *)

Lemma py_eq_false (a b : pyval) : py_eq a b = false ↔ py_key a ≠ py_key b.
Proof. rewrite <- py_eq_key. by destruct (py_eq a b). Qed.

(** Replaces every comparison of two values by the corresponding statement
    about their equality classes. *)
Ltac py_eq_cases :=
  repeat match goal with
    | |- context [py_eq ?a ?b] =>
        let E := fresh "E" in
        destruct (py_eq a b) eqn:E;
        [apply py_eq_key in E | apply py_eq_false in E]
    end.

Lemma dict_lookup_cons (k0 v0 : pyval) (d : list (pyval * pyval)) (k : pyval) :
  dict_lookup ((k0, v0) :: d) k =
  if py_eq k0 k then Some v0 else dict_lookup d k.
Proof. unfold dict_lookup. simpl. by destruct (py_eq k0 k). Qed.

Lemma dict_lookup_update (d : list (pyval * pyval)) (k v k' : pyval) :
  dict_lookup (dict_update d k v) k' =
  if py_eq k k' then Some v else dict_lookup d k'.
Proof.
  induction d as [|[k0 v0] d IH]; simpl.
  - by rewrite dict_lookup_cons.
  - destruct (py_eq k0 k) eqn:E0; rewrite !dict_lookup_cons.
    + apply py_eq_key in E0. py_eq_cases; congruence.
    + apply py_eq_false in E0. rewrite IH. py_eq_cases; congruence.
Qed.

Lemma dict_lookup_foldl (kvs d : list (pyval * pyval)) (k : pyval) :
  dict_lookup (foldl (λ d kv, dict_update d kv.1 kv.2) d kvs) k =
  match last (filter (λ kv, py_eq kv.1 k) kvs) with
  | Some kv => Some kv.2
  | None => dict_lookup d k
  end.
Proof.
  revert d. induction kvs as [|[k0 v0] kvs IH]; intros d; simpl; [done|].
  rewrite IH, filter_cons, dict_lookup_update; simpl.
  destruct (py_eq k0 k) eqn:E; case_decide; try done.
  destruct (filter _ kvs) as [|y r]; [done|].
  destruct (last (y :: r)) eqn:E2; [by rewrite last_cons, E2|].
  by apply last_None in E2.
Qed.

Lemma map_parse_fold (key_type value_type : ty)
    (pairs decoded d : list (pyval * pyval)) :
  Forall2 (λ p kv, decode parse key_type p.1 = Ok kv.1 ∧
                   decode parse value_type p.2 = Ok kv.2) pairs decoded →
  Forall (λ kv, hashable kv.1 = true) decoded →
  for_fold (Map_parse_item parse key_type value_type) d
    ((λ p, VTuple [p.1; p.2]) <$> pairs) =
  Ok (foldl (λ d kv, dict_update d kv.1 kv.2) d decoded).
Proof.
  intros Hdec. revert d.
  induction Hdec as [|p kv pairs decoded [Hk Hv] _ IH]; intros d Hh; simpl;
    [done|].
  apply Forall_cons in Hh as [Hkv Hh].
  unfold Map_parse_item at 1. simpl. rewrite Hk. simpl. rewrite Hv. simpl.
  unfold dict_setitem. rewrite Hkv. simpl. by apply IH.
Qed.

(** X28: when every key and value decodes and the decoded keys are
    hashable, [Map.parse] inserts the pairs in input order, so the value
    found under a key is the value of the last pair with an equal key; two
    pairs with equal keys leave a single entry holding the second value. *)
Theorem map_parse_last_wins (key_type value_type : ty)
    (pairs decoded : list (pyval * pyval)) :
  Forall2 (λ p kv, decode parse key_type p.1 = Ok kv.1 ∧
                   decode parse value_type p.2 = Ok kv.2) pairs decoded →
  Forall (λ kv, hashable kv.1 = true) decoded →
  ∃ d, parse (TMap key_type value_type)
         (VList ((λ p, VTuple [p.1; p.2]) <$> pairs)) = Ok (VDict d) ∧
       d = foldl (λ d kv, dict_update d kv.1 kv.2) [] decoded ∧
       (∀ k, dict_lookup d k =
             snd <$> last (filter (λ kv, py_eq kv.1 k) decoded)) ∧
       (∀ k1 v1 k2 v2, decoded = [(k1, v1); (k2, v2)] →
                       py_eq k1 k2 = true → d = [(k1, v2)]).
Proof.
  intros Hdec Hh. eexists. split; [|split; [reflexivity|split]].
  - simpl. unfold Map_parse. simpl.
    by rewrite (map_parse_fold _ _ pairs decoded [] Hdec Hh).
  - intros k. rewrite dict_lookup_foldl. by destruct (last _).
  - intros k1 v1 k2 v2 -> Heq. simpl. by rewrite Heq.
Qed.

Lemma map_parse_last_wins_witness :
  let pairs := [(VInt 1, VInt 10); (VBool true, VInt 20)] in
  Forall2 (λ p kv, decode parse Sample.i32 p.1 = Ok kv.1 ∧
                   decode parse Sample.i32 p.2 = Ok kv.2) pairs pairs ∧
  Forall (λ kv, hashable kv.1 = true) pairs ∧
  parse (TMap Sample.i32 Sample.i32)
    (VList [VTuple [VInt 1; VInt 10]; VTuple [VBool true; VInt 20]])
  = Ok (VDict [(VInt 1, VInt 20)]).
Proof.
  intros pairs.
  assert (Hdec : Forall2 (λ p kv, decode parse Sample.i32 p.1 = Ok kv.1 ∧
                   decode parse Sample.i32 p.2 = Ok kv.2) pairs pairs)
    by (repeat constructor).
  assert (Hh : Forall (λ kv, hashable kv.1 = true) pairs)
    by (repeat constructor).
  split; [exact Hdec|]. split; [exact Hh|].
  destruct (map_parse_last_wins Sample.i32 Sample.i32 pairs pairs Hdec Hh)
    as (d & Hparse & _ & _ & Htwo).
  rewrite (Htwo (VInt 1) (VInt 10) (VBool true) (VInt 20) eq_refl eq_refl)
    in Hparse.
  exact Hparse.
Defined.

(** C6: the code breaks the claim on a [map<list<i32>, i32>].  The keys of
    the two pairs decode, to two equal lists; but a list cannot be a
    dictionary key, so [Map.parse] raises [TypeError] and gives no mapping,
    where the claim has a single entry holding the second value. *)
Lemma map_parse_unhashable_key :
  let raw := VList [VTuple [VList [VInt 1]; VInt 10];
                    VTuple [VList [VInt 1]; VInt 20]] in
  decode parse (TList Sample.i32) (VList [VInt 1]) = Ok (VList [VInt 1]) ∧
  parse (TMap (TList Sample.i32) Sample.i32) raw = Raise TypeError ∧
  ¬ ∃ d, parse (TMap (TList Sample.i32) Sample.i32) raw = Ok (VDict d).
Proof.
  split; [reflexivity|]. split; [reflexivity|]. intros [d Hd]. discriminate Hd.
Qed.

(** ** Entries looked up by tag *)

Lemma last_with_tag_cons (tag : Z) (x : pyval) (raw : list pyval) :
  last_with_tag tag (x :: raw) =
  match last_with_tag tag raw with
  | Some y => Some y
  | None => if has_tag tag x then Some x else None
  end.
Proof.
  unfold last_with_tag. rewrite filter_cons.
  destruct (has_tag tag x); case_decide; try done.
  - destruct (filter _ raw) as [|y r]; [done|].
    rewrite last_cons. by destruct (last (y :: r)).
  - by destruct (last _).
Qed.

Lemma last_with_tag_app (tag : Z) (l1 l2 : list pyval) :
  last_with_tag tag (l1 ++ l2) =
  match last_with_tag tag l2 with
  | Some y => Some y
  | None => last_with_tag tag l1
  end.
Proof. unfold last_with_tag. by rewrite filter_app, last_app. Qed.

Lemma last_with_tag_has_tag (tag : Z) (raw : list pyval) (x : pyval) :
  last_with_tag tag raw = Some x → has_tag tag x = true ∧ x ∈ raw.
Proof.
  unfold last_with_tag. intros Hl.
  assert (Hin : x ∈ filter (λ x, has_tag tag x) raw).
  { apply last_Some in Hl as [l' ->]. apply elem_of_app. right. by left. }
  apply list_elem_of_filter in Hin as [Ht Hin]. split; [|done].
  by apply Is_true_true.
Qed.

(** The dictionary of a list of entries holds, for each tag, the last entry
    with that tag. *)
Lemma for_fold_field_id (raw : list pyval) (m : gmap Z pyval) :
  Forall (λ x, is_field x) raw →
  ∃ m', for_fold (λ m x, let* fid := get_field_id x in Ok (<[fid := x]> m))
          m raw = Ok m' ∧
        ∀ tag, m' !! tag = match last_with_tag tag raw with
                           | Some x => Some x
                           | None => m !! tag
                           end.
Proof.
  intros Hraw. revert m.
  induction Hraw as [|x raw Hx _ IH]; intros m; simpl; [by exists m|].
  destruct x as [| | | | | | | |o fid v]; try done. simpl.
  destruct (IH (<[fid := VField o fid v]> m)) as (m' & -> & Hm').
  exists m'. split; [done|]. intros tag.
  rewrite Hm', last_with_tag_cons. simpl.
  destruct (last_with_tag tag raw); [done|].
  destruct (Z.eqb_spec fid tag) as [->|Hne].
  - apply lookup_insert_eq.
  - by apply lookup_insert_ne.
Qed.

Lemma by_field_id_entries (raw : list pyval) :
  Forall (λ x, is_field x) raw →
  ∃ m, by_field_id (VList raw) = Ok m ∧
       ∀ tag, m !! tag = last_with_tag tag raw.
Proof.
  intros Hraw. destruct (for_fold_field_id raw ∅ Hraw) as (m & Hm & Hl).
  exists m. split; [done|]. intros tag. rewrite Hl.
  destruct (last_with_tag tag raw); [done|]. apply lookup_empty.
Qed.

Lemma for_each_ext {A B : Type} (f g : A → result B) (l : list A) :
  (∀ x, x ∈ l → f x = g x) → for_each f l = for_each g l.
Proof.
  induction l as [|x l IH]; intros Hfg; simpl; [done|].
  rewrite (Hfg x) by (by left). rewrite IH; [done|].
  intros y Hy. apply Hfg. by right.
Qed.

(** ** Structs *)

Lemma Struct_parse_field_ref (m : gmap Z pyval) (raw : list pyval)
    (field_def : Field.t ty) :
  Forall (λ x, is_field x) raw →
  (∀ tag, m !! tag = last_with_tag tag raw) →
  Struct_parse_field parse m field_def = field_pair_ref raw field_def.
Proof.
  intros Hraw Hm. unfold Struct_parse_field, field_pair_ref, tagged_value.
  rewrite Hm. destruct (last_with_tag _ raw) as [x|] eqn:E; [|done].
  apply last_with_tag_has_tag in E as [Ht _]. by destruct x.
Qed.

(** [Struct.parse] on a list of entries agrees with the decode read off the
    entries directly. *)
Lemma Struct_parse_ref (name : string) (fields : list (Field.t ty))
    (raw : list pyval) :
  Forall (λ x, is_field x) raw →
  Struct_parse parse name fields (VList raw) =
  struct_decode_ref name fields raw.
Proof.
  intros Hraw. unfold Struct_parse, struct_decode_ref.
  destruct (by_field_id_entries raw Hraw) as (m & -> & Hm). simpl.
  rewrite (for_each_ext _ (field_pair_ref raw)); [done|].
  intros fd _. by apply Struct_parse_field_ref.
Qed.

Lemma tagged_value_drop_earlier (tag : Z) (pre mid post : list pyval)
    (e e' : pyval) (t : Z) :
  has_tag t e = true → has_tag t e' = true →
  tagged_value tag (pre ++ e :: mid ++ e' :: post) =
  tagged_value tag (pre ++ mid ++ e' :: post).
Proof.
  intros He He'. unfold tagged_value. f_equal.
  rewrite !last_with_tag_app, !last_with_tag_cons, !last_with_tag_app,
    !last_with_tag_cons.
  destruct (last_with_tag tag post); [done|].
  destruct e as [| | | | | | | |o f v], e' as [| | | | | | | |o' f' v'];
    try done. simpl in *.
  apply Z.eqb_eq in He, He'. subst f f'.
  destruct (t =? tag); [done|]. by destruct (last_with_tag tag mid).
Qed.

Lemma tagged_value_drop_other (tag : Z) (pre post : list pyval) (e : pyval) :
  has_tag tag e = false →
  tagged_value tag (pre ++ e :: post) = tagged_value tag (pre ++ post).
Proof.
  intros He. unfold tagged_value. f_equal.
  rewrite !last_with_tag_app, last_with_tag_cons, He.
  by destruct (last_with_tag tag post).
Qed.

Lemma struct_decode_ref_ext (name : string) (fields : list (Field.t ty))
    (raw raw' : list pyval) :
  (∀ fd, fd ∈ fields →
         tagged_value (Field.tag fd) raw = tagged_value (Field.tag fd) raw') →
  struct_decode_ref name fields raw = struct_decode_ref name fields raw'.
Proof.
  intros Hext. unfold struct_decode_ref.
  rewrite (for_each_ext _ (field_pair_ref raw')); [done|].
  intros fd Hfd. unfold field_pair_ref. by rewrite Hext.
Qed.

(** C10: on a list of entries, struct decode gives each declared field the
    value of the last entry carrying the field's tag: an earlier entry with
    the same tag as a later one has no effect, and neither has an entry whose
    tag no declared field carries. *)
Theorem struct_parse_last_entry (name : string) (fields : list (Field.t ty))
    (raw : list pyval) :
  Forall (λ x, is_field x) raw →
  parse (TStruct name fields) (VList raw) = struct_decode_ref name fields raw ∧
  (∀ pre e mid e' post tag,
     raw = pre ++ e :: mid ++ e' :: post →
     has_tag tag e = true → has_tag tag e' = true →
     parse (TStruct name fields) (VList raw) =
     parse (TStruct name fields) (VList (pre ++ mid ++ e' :: post))) ∧
  (∀ pre e post,
     raw = pre ++ e :: post →
     (∀ fd, fd ∈ fields → has_tag (Field.tag fd) e = false) →
     parse (TStruct name fields) (VList raw) =
     parse (TStruct name fields) (VList (pre ++ post))).
Proof.
  intros Hraw. simpl. split; [by apply Struct_parse_ref|]. split.
  - intros pre e mid e' post tag -> He He'.
    assert (Hraw' : Forall (λ x, is_field x) (pre ++ mid ++ e' :: post)).
    { apply Forall_app in Hraw as [Hpre Hrest].
      apply Forall_cons in Hrest as [_ Hrest]. by apply Forall_app. }
    rewrite !Struct_parse_ref by done.
    apply struct_decode_ref_ext. intros fd _.
    by apply tagged_value_drop_earlier with tag.
  - intros pre e post -> He.
    assert (Hraw' : Forall (λ x, is_field x) (pre ++ post)).
    { apply Forall_app in Hraw as [Hpre Hrest].
      apply Forall_cons in Hrest as [_ Hrest]. by apply Forall_app. }
    rewrite !Struct_parse_ref by done.
    apply struct_decode_ref_ext. intros fd Hfd.
    apply tagged_value_drop_other. by apply He.
Qed.

Lemma struct_parse_last_entry_witness :
  let raw := [VField 1 1 (VInt 3); VField 2 7 (VStr "extra");
              VField 3 1 (VInt 4)] in
  Forall (λ x, is_field x) raw ∧
  parse Sample.Point (VList raw) =
    Ok (VTuple [VStr "Point"; VList [VTuple [VStr "x"; VInt 4];
                                     VTuple [VStr "color"; VNone]]]) ∧
  parse Sample.Point (VList raw) =
    parse Sample.Point (VList [VField 2 7 (VStr "extra"); VField 3 1 (VInt 4)]) ∧
  parse Sample.Point (VList raw) =
    parse Sample.Point (VList [VField 1 1 (VInt 3); VField 3 1 (VInt 4)]).
Proof.
  intros raw.
  assert (Hraw : Forall (λ x, is_field x) raw) by (repeat constructor).
  destruct (struct_parse_last_entry "Point"
              [Field.mk 1 "x" true Sample.i32;
               Field.mk 2 "color" false Sample.Color] raw Hraw)
    as (Href & Hdup & Hother).
  split; [exact Hraw|]. split; [exact Href|]. split.
  - exact (Hdup [] (VField 1 1 (VInt 3)) [VField 2 7 (VStr "extra")]
             (VField 3 1 (VInt 4)) [] 1 eq_refl eq_refl eq_refl).
  - apply (Hother [VField 1 1 (VInt 3)] (VField 2 7 (VStr "extra"))
             [VField 3 1 (VInt 4)] eq_refl).
    intros fd Hfd. rewrite !elem_of_cons in Hfd.
    destruct Hfd as [->|[->|Hfd]]; [reflexivity|reflexivity|].
    by apply elem_of_nil in Hfd.
Defined.

Lemma field_pairs_ref (raw : list pyval) (fields : list (Field.t ty)) :
  (∀ fd r, fd ∈ fields → tagged_value (Field.tag fd) raw = Some r →
           ∃ v, decode parse (Field.type fd) r = Ok v) →
  ∃ values,
    for_each (field_pair_ref raw) fields = Ok (zip_with named fields values) ∧
    Forall2 (λ fd v, match tagged_value (Field.tag fd) raw with
                     | Some r => decode parse (Field.type fd) r = Ok v
                     | None => v = VNone
                     end) fields values.
Proof.
  induction fields as [|fd fields IH]; intros Hdec; simpl.
  - exists []. split; [done|constructor].
  - destruct IH as (values & -> & Hvalues).
    { intros fd' r Hfd'. apply Hdec. by right. }
    assert (Hfd : ∃ v, field_pair_ref raw fd = Ok (named fd v) ∧
                       match tagged_value (Field.tag fd) raw with
                       | Some r => decode parse (Field.type fd) r = Ok v
                       | None => v = VNone
                       end).
    { unfold field_pair_ref.
      destruct (tagged_value (Field.tag fd) raw) as [r|] eqn:E.
      - destruct (Hdec fd r) as [v Hv]; [by left|done|].
        exists v. by rewrite Hv.
      - by exists VNone. }
    destruct Hfd as (v & -> & Hv). exists (v :: values).
    split; [done|]. by constructor.
Qed.

Lemma field_pairs_ref_nil (fields : list (Field.t ty)) :
  for_each (field_pair_ref []) fields =
  Ok ((λ fd, named fd VNone) <$> fields).
Proof.
  induction fields as [|fd fields IH]; simpl; [done|]. by rewrite IH.
Qed.

(** C2, as the code has it: [Struct.parse] (and so [Exc.parse]) returns the
    struct's name paired with the sequence of (field name, value) pairs, one
    per declared field in declaration order, provided every entry it looks
    up decodes; a declared field with no entry gets [None].  On the empty
    field list it always returns, with every value [None]. *)
Theorem struct_parse_declared_order (name : string)
    (fields : list (Field.t ty)) :
  (∀ raw,
     Forall (λ x, is_field x) raw →
     (∀ fd r, fd ∈ fields → tagged_value (Field.tag fd) raw = Some r →
              ∃ v, decode parse (Field.type fd) r = Ok v) →
     ∃ values,
       parse (TStruct name fields) (VList raw) =
         Ok (VTuple [VStr name; VList (zip_with named fields values)]) ∧
       parse (TExc name fields) (VList raw) =
         Ok (VTuple [VStr name; VList (zip_with named fields values)]) ∧
       Forall2 (λ fd v, match tagged_value (Field.tag fd) raw with
                        | Some r => decode parse (Field.type fd) r = Ok v
                        | None => v = VNone
                        end) fields values) ∧
  parse (TStruct name fields) (VList []) =
    Ok (VTuple [VStr name; VList ((λ fd, named fd VNone) <$> fields)]) ∧
  parse (TExc name fields) (VList []) =
    Ok (VTuple [VStr name; VList ((λ fd, named fd VNone) <$> fields)]).
Proof.
  simpl. split.
  - intros raw Hraw Hdec.
    destruct (field_pairs_ref raw fields Hdec) as (values & Hfor & Hvalues).
    exists values. rewrite Struct_parse_ref by done.
    unfold struct_decode_ref. by rewrite Hfor.
  - rewrite Struct_parse_ref by constructor.
    unfold struct_decode_ref. by rewrite field_pairs_ref_nil.
Qed.

Lemma struct_parse_declared_order_witness :
  let raw := [VField 1 2 (VInt 1); VField 2 1 (VInt 5)] in
  Forall (λ x, is_field x) raw ∧
  ∃ values,
    parse Sample.Point (VList raw) =
      Ok (VTuple [VStr "Point";
                  VList (zip_with named
                           [Field.mk 1 "x" true Sample.i32;
                            Field.mk 2 "color" false Sample.Color] values)]) ∧
    Forall2 (λ fd v, match tagged_value (Field.tag fd) raw with
                     | Some r => decode parse (Field.type fd) r = Ok v
                     | None => v = VNone
                     end)
      [Field.mk 1 "x" true Sample.i32; Field.mk 2 "color" false Sample.Color]
      values.
Proof.
  intros raw.
  assert (Hraw : Forall (λ x, is_field x) raw) by (repeat constructor).
  split; [exact Hraw|].
  destruct (proj1 (struct_parse_declared_order "Point"
                     [Field.mk 1 "x" true Sample.i32;
                      Field.mk 2 "color" false Sample.Color]) raw Hraw)
    as (values & Hs & _ & Hv).
  - intros fd r Hfd. rewrite !elem_of_cons in Hfd.
    destruct Hfd as [->|[->|Hfd]].
    + intros [= <-]. by exists (VInt 5).
    + intros [= <-]. by exists (VStr "RED").
    + by apply elem_of_nil in Hfd.
  - exists values. split; [exact Hs|exact Hv].
Defined.

(** C2 as stated fails twice over: the result of a struct decode is not the
    bare sequence of pairs but the struct's name paired with it, and a field
    whose entry does not decode makes the whole decode raise. *)
Lemma struct_parse_not_bare_pairs :
  parse Sample.Err (VList []) =
    Ok (VTuple [VStr "Err"; VList [VTuple [VStr "message"; VNone]]]) ∧
  (¬ ∃ pairs, parse Sample.Err (VList []) = Ok (VList pairs)) ∧
  parse Sample.Point (VList [VField 1 2 (VInt 99)]) = Raise KeyError.
Proof.
  split; [reflexivity|]. split; [|reflexivity].
  intros [pairs Hp]. discriminate Hp.
Qed.

(** ** Calls and replies *)

Lemma tagged_value_entry (tag : Z) (raw : list pyval) (r : pyval) :
  tagged_value tag raw = Some r →
  get_value (default VNone (last_with_tag tag raw)) = Ok r.
Proof.
  unfold tagged_value. destruct (last_with_tag tag raw) as [x|]; [|done].
  destruct x; try done. by intros [= ->].
Qed.

Lemma get_args_arg_named (m : gmap Z pyval) (raw : list pyval)
    (arg : Field.t ty) (r v : pyval) :
  (∀ tag, m !! tag = last_with_tag tag raw) →
  tagged_value (Field.tag arg) raw = Some r →
  decode parse (Field.type arg) r = Ok v →
  Function.get_args_arg m arg = Ok (named arg v).
Proof.
  intros Hm Hr Hv. unfold Function.get_args_arg.
  rewrite Hm, (tagged_value_entry _ _ _ Hr). simpl. by rewrite Hv.
Qed.

(** C3, as the code has it: on a call whose entries include one for every
    declared argument tag, and whose looked-up values all decode, the result
    is the sequence of (argument name, decoded value) pairs in declared
    order; the value looked up for a tag is that of the last entry carrying
    it, and it is passed through when the argument's type is no schema
    type. *)
Theorem get_args_call_declared_order (self : Function.t) (msg : Msg.t)
    (values : list pyval) :
  Msg.type msg = "call" →
  Forall (λ x, is_field x) (Msg.args msg) →
  Forall2 (λ arg v,
             ∃ r, tagged_value (Field.tag arg) (Msg.args msg) = Some r ∧
                  (if isinstance_Type (Field.type arg)
                   then parse (Field.type arg) r else Ok r) = Ok v)
    (Function.arguments self) values →
  Function.get_args self msg =
  Ok (VList (zip_with named (Function.arguments self) values)).
Proof.
  intros Hcall Hargs Hvalues.
  unfold Function.get_args, Function.get_args_try. rewrite Hcall. simpl.
  unfold Function.get_args_call.
  destruct (by_field_id_entries _ Hargs) as (m & -> & Hm). simpl.
  assert (Hfor : for_each (Function.get_args_arg m) (Function.arguments self)
                 = Ok (zip_with named (Function.arguments self) values)).
  { induction Hvalues as [|arg v args values (r & Hr & Hv) _ IH]; simpl;
      [done|].
    by rewrite (get_args_arg_named m _ arg r v Hm Hr Hv), IH. }
  by rewrite Hfor.
Qed.

Lemma get_args_call_declared_order_witness :
  let msg := Msg.mk "call" [VField 1 2 (VInt 4); VField 2 1 (VInt 3)] in
  Msg.type msg = "call" ∧
  Forall (λ x, is_field x) (Msg.args msg) ∧
  Function.get_args Sample.add msg =
    Ok (VList [VTuple [VStr "a"; VInt 3]; VTuple [VStr "b"; VInt 4]]).
Proof.
  intros msg.
  assert (Hargs : Forall (λ x, is_field x) (Msg.args msg))
    by (repeat constructor).
  split; [reflexivity|]. split; [exact Hargs|].
  apply (get_args_call_declared_order Sample.add msg [VInt 3; VInt 4]
           eq_refl Hargs).
  repeat constructor; eexists; split; reflexivity.
Defined.

(** C3 as stated fails: the call carries an entry for the only declared
    argument tag, but its value is no declared tag of the argument's
    enumeration, so the decode raises and the raw entries come back. *)
Lemma get_args_call_decode_error :
  let msg := Msg.mk "call" [VField 1 1 (VInt 99)] in
  tagged_value 1 (Msg.args msg) = Some (VInt 99) ∧
  parse Sample.Color (VInt 99) = Raise KeyError ∧
  Function.get_args Sample.paint msg = Ok (VList [VField 1 1 (VInt 99)]) ∧
  ¬ ∃ v, Function.get_args Sample.paint msg
         = Ok (VList [VTuple [VStr "color"; v]]).
Proof.
  repeat split. intros [v Hv]. discriminate Hv.
Qed.

Lemma dict_of_tag_NoDup (fields : list (Field.t ty)) (fd : Field.t ty) :
  NoDup (Field.tag <$> fields) → fd ∈ fields →
  dict_of Field.tag fields !! Field.tag fd = Some fd.
Proof.
  intros Hnd Hin. by rewrite dict_of_lookup, filter_key_NoDup.
Qed.

(** C4, as the code has it: on a reply only the first entry counts.  With
    tag 0 its value is decoded through the return type (passed through when
    that is no schema type), whatever the throws declare; with the tag of a
    declared throw it is decoded through that throw's type.  In both cases
    the decoded value is returned provided the decode does not raise. *)
Theorem get_args_reply_first (self : Function.t) (o : positive)
    (field_id : Z) (r : pyval) (rest : list pyval) (v : pyval) :
  let msg := Msg.mk "reply" (VField o field_id r :: rest) in
  (field_id = 0 →
   (if isinstance_Type (Function.type self)
    then parse (Function.type self) r else Ok r) = Ok v →
   Function.get_args self msg = Ok v) ∧
  (∀ throw,
     field_id ≠ 0 →
     NoDup (Field.tag <$> Function.throws self) →
     throw ∈ Function.throws self →
     Field.tag throw = field_id →
     (if isinstance_Type (Field.type throw)
      then parse (Field.type throw) r else Ok r) = Ok v →
     Function.get_args self msg = Ok v).
Proof.
  intros msg. unfold Function.get_args, Function.get_args_try. simpl.
  unfold Function.get_args_reply. simpl. split.
  - intros -> Hv. simpl. unfold decode. by rewrite Hv.
  - intros throw Hne Hnd Hin <- Hv.
    apply Z.eqb_neq in Hne. rewrite Hne.
    unfold Function.throws_by_tags.
    rewrite (dict_of_tag_NoDup _ throw Hnd Hin). simpl.
    unfold decode. by rewrite Hv.
Qed.

Lemma get_args_reply_first_witness :
  Function.get_args Sample.add (Msg.mk "reply" [VField 1 0 (VInt 7)])
    = Ok (VInt 7) ∧
  NoDup (Field.tag <$> Function.throws Sample.add) ∧
  Function.get_args Sample.add
    (Msg.mk "reply" [VField 1 1 (VList [VField 2 1 (VStr "boom")])])
    = Ok (VTuple [VStr "Err"; VList [VTuple [VStr "message"; VStr "boom"]]]).
Proof.
  assert (Hnd : NoDup (Field.tag <$> Function.throws Sample.add)).
  { simpl. apply NoDup_singleton. }
  split; [|split; [exact Hnd|]].
  - apply (proj1 (get_args_reply_first Sample.add 1 0 (VInt 7) []
                    (VInt 7)) eq_refl eq_refl).
  - apply (proj2 (get_args_reply_first Sample.add 1 1
                    (VList [VField 2 1 (VStr "boom")]) []
                    (VTuple [VStr "Err";
                             VList [VTuple [VStr "message"; VStr "boom"]]]))
             (Field.mk 1 "e" false Sample.Err)).
    + lia.
    + exact Hnd.
    + simpl. by left.
    + reflexivity.
    + reflexivity.
Defined.

(** C4 as stated fails: the first entry of the reply has tag 0, but its
    value is no declared tag of the return type's enumeration, so there is
    no decoded return value and the raw entries come back. *)
Lemma get_args_reply_decode_error :
  let msg := Msg.mk "reply" [VField 1 0 (VInt 99)] in
  parse Sample.Color (VInt 99) = Raise KeyError ∧
  Function.get_args Sample.paint msg = Ok (VList [VField 1 0 (VInt 99)]) ∧
  ¬ ∃ v, parse (Function.type Sample.paint) (VInt 99) = Ok v ∧
         Function.get_args Sample.paint msg = Ok v.
Proof.
  repeat split. intros (v & Hv & _). discriminate Hv.
Qed.

(** * Further properties of the decoder *)

(** ** Loops that raise *)

Lemma for_each_raise {A B : Type} (f : A → result B) (pre post : list A)
    (ys : list B) (x : A) (e : exn) :
  Forall2 (λ x y, f x = Ok y) pre ys → f x = Raise e →
  for_each f (pre ++ x :: post) = Raise e.
Proof.
  intros Hpre Hx. induction Hpre as [|a y pre ys Ha _ IH]; simpl.
  - by rewrite Hx.
  - by rewrite Ha, IH.
Qed.

Lemma for_each_ok_elem {A B : Type} (f : A → result B) (l : list A)
    (ys : list B) (x : A) :
  for_each f l = Ok ys → x ∈ l → ∃ y, f x = Ok y.
Proof.
  intros Hok Hx. apply for_each_Forall2 in Hok.
  apply list_elem_of_lookup in Hx as [i Hi].
  destruct (Forall2_lookup_l _ _ _ _ _ Hok Hi) as (y & _ & Hy). eauto.
Qed.

Lemma for_each_id (xs : list pyval) : for_each Ok xs = Ok xs.
Proof. induction xs as [|x xs IH]; simpl; [done|]. by rewrite IH. Qed.

(** ** Lists *)

(** X1: [List.parse] returns exactly when every element decodes; the result then
    has the length of the input and holds, position by position, the decoded
    elements. *)
Theorem list_parse_pointwise (type : ty) (xs : list pyval) (r : pyval) :
  parse (TList type) (VList xs) = Ok r ↔
  ∃ ys, r = VList ys ∧ length ys = length xs ∧
        Forall2 (λ x y, decode parse type x = Ok y) xs ys.
Proof.
  simpl. unfold List_parse. simpl. split.
  - destruct (for_each (decode parse type) xs) as [ys|e] eqn:E; [|done].
    simpl. intros [= <-]. apply for_each_Forall2 in E.
    exists ys. split; [done|]. split; [|done].
    symmetry. by eapply Forall2_length.
  - intros (ys & -> & _ & Hys). apply for_each_Forall2 in Hys.
    by rewrite Hys.
Qed.

(** X2: A list whose element type is a primitive comes back unchanged, items in
    the order the input yields them; a tuple comes back as a list. *)
Theorem list_parse_primitive (node : string) (v : pyval) (xs : list pyval) :
  py_iter v = Ok xs → parse (TList (AstNode node)) v = Ok (VList xs).
Proof.
  intros Hv. simpl. unfold List_parse. rewrite Hv. simpl.
  change (decode parse (AstNode node)) with (@Ok pyval).
  by rewrite for_each_id.
Qed.

Lemma list_parse_primitive_witness :
  py_iter (VTuple [VInt 3; VStr "a"; VInt 3]) = Ok [VInt 3; VStr "a"; VInt 3] ∧
  parse (TList (AstNode "i32")) (VTuple [VInt 3; VStr "a"; VInt 3])
  = Ok (VList [VInt 3; VStr "a"; VInt 3]).
Proof.
  split; [reflexivity|].
  exact (list_parse_primitive "i32" (VTuple [VInt 3; VStr "a"; VInt 3])
           [VInt 3; VStr "a"; VInt 3] eq_refl).
Defined.

(** X3: The first element that fails to decode makes [List.parse] raise that
    element's exception; the elements after it are not looked at. *)
Theorem list_parse_first_error (type : ty) (pre post : list pyval)
    (ys : list pyval) (x : pyval) (e : exn) :
  Forall2 (λ x y, decode parse type x = Ok y) pre ys →
  decode parse type x = Raise e →
  parse (TList type) (VList (pre ++ x :: post)) = Raise e.
Proof.
  intros Hpre Hx. simpl. unfold List_parse. simpl.
  by rewrite (for_each_raise _ pre post ys x e Hpre Hx).
Qed.

Lemma list_parse_first_error_witness :
  Forall2 (λ x y, decode parse Sample.Color x = Ok y) [VInt 1] [VStr "RED"] ∧
  decode parse Sample.Color (VInt 9) = Raise KeyError ∧
  parse (TList Sample.Color) (VList [VInt 1; VInt 9; VList []])
  = Raise KeyError.
Proof.
  assert (Hpre : Forall2 (λ x y, decode parse Sample.Color x = Ok y)
                   [VInt 1] [VStr "RED"]) by (repeat constructor).
  split; [exact Hpre|]. split; [reflexivity|].
  exact (list_parse_first_error Sample.Color [VInt 1] [VList []]
           [VStr "RED"] (VInt 9) KeyError Hpre eq_refl).
Defined.

(** ** Enumerations *)

(** X4: When several declared pairs share a tag, decoding that tag gives the
    label of the last of them. *)
Theorem enum_parse_last_label (name label : string) (tag : Z)
    (before after : list (string * Z)) :
  tag ∉ after.*2 →
  parse (TEnum name (before ++ (label, tag) :: after)) (VInt tag)
  = Ok (VStr label).
Proof.
  intros Hafter. simpl. unfold Enum_parse. simpl.
  rewrite names_by_tags_lookup, filter_app, filter_cons. simpl.
  rewrite decide_True by done.
  rewrite (filter_nil_not_elem snd after) by done.
  by rewrite last_snoc.
Qed.

Lemma enum_parse_last_label_witness :
  (2 ∉ ([("BLUE", 3)].*2)) ∧
  parse (TEnum "Color" [("RED", 2); ("GREEN", 2); ("BLUE", 3)]) (VInt 2)
  = Ok (VStr "GREEN").
Proof.
  assert (H : 2 ∉ [("BLUE", 3)].*2).
  { simpl. rewrite not_elem_of_cons. split; [lia|apply not_elem_of_nil]. }
  split; [exact H|].
  exact (enum_parse_last_label "Color" "GREEN" 2 [("RED", 2)] [("BLUE", 3)] H).
Defined.

(** X5: Whatever [Enum.parse] returns is a declared label, and the raw value was
    equal to the integer tag declared with it. *)
Theorem enum_parse_declared (name : string) (values : list (string * Z))
    (raw v : pyval) :
  parse (TEnum name values) raw = Ok v →
  ∃ label tag, v = VStr label ∧ (label, tag) ∈ values ∧
               py_eq raw (VInt tag) = true.
Proof.
  simpl. unfold Enum_parse, int_key.
  destruct (hashable raw); [|done]. simpl.
  destruct (py_key raw) as [| |tag| | | | | |] eqn:Ek; try done. simpl.
  rewrite names_by_tags_lookup.
  destruct (last _) as [[label tag']|] eqn:El; [|done]. simpl.
  intros [= <-]. apply last_Some in El as [l' El].
  assert (Hin : (label, tag') ∈ filter (λ nv, nv.2 = tag) values).
  { rewrite El. apply elem_of_app. right. by left. }
  apply list_elem_of_filter in Hin as [Ht Hin]. simpl in Ht. subst tag'.
  exists label, tag. split; [done|]. split; [done|]. by apply py_eq_key.
Qed.

Lemma enum_parse_declared_witness :
  parse Sample.Color (VBool true) = Ok (VStr "RED") ∧
  ∃ label tag, VStr "RED" = VStr label ∧
               (label, tag) ∈ [("RED", 1); ("GREEN", 2)] ∧
               py_eq (VBool true) (VInt tag) = true.
Proof.
  split; [reflexivity|].
  exact (enum_parse_declared "Color" [("RED", 1); ("GREEN", 2)]
           (VBool true) (VStr "RED") eq_refl).
Defined.

(** ** Sets and maps of composite values *)

Lemma for_fold_cons_ok {A S : Type} (f : S → A → result S) (s s' : S)
    (x : A) (l : list A) :
  for_fold f s (x :: l) = Ok s' →
  ∃ s1, f s x = Ok s1 ∧ for_fold f s1 l = Ok s'.
Proof. simpl. destruct (f s x) as [s1|e]; [eauto|done]. Qed.

(** X6: [Set.parse] returns exactly when every element decodes to a hashable
    value. *)
Theorem set_parse_returns_iff (type : ty) (xs : list pyval) :
  (∃ r, parse (TSet type) (VList xs) = Ok r) ↔
  ∃ vs, Forall2 (λ x v, decode parse type x = Ok v) xs vs ∧
        Forall (λ v, hashable v = true) vs.
Proof.
  split.
  - simpl. unfold Set_parse. simpl. intros [r Hr].
    destruct (for_fold _ [] xs) as [s'|e] eqn:E; [clear Hr|done].
    revert E. generalize (@nil pyval) as s. revert s'.
    induction xs as [|x xs IH]; intros s' s E.
    + exists []. split; constructor.
    + apply for_fold_cons_ok in E as (s1 & Hx & E).
      destruct (decode parse type x) as [v|e] eqn:Ev; [|done]. simpl in Hx.
      unfold set_add in Hx. destruct (hashable v) eqn:Hv; [|done].
      destruct (IH _ _ E) as (vs & Hvs & Hh).
      exists (v :: vs). split; by constructor.
  - intros (vs & Hvs & Hh). simpl. unfold Set_parse. simpl.
    rewrite (set_parse_fold type xs vs [] Hvs Hh). eauto.
Qed.

(** The types whose decoded values are lists, sets, dictionaries or decoded
    structs. *)
Lemma parse_composite_unhashable (t : ty) (x v : pyval) :
  match t with
  | TStruct _ _ | TExc _ _ | TList _ | TSet _ | TMap _ _ => True
  | _ => False
  end →
  decode parse t x = Ok v → hashable v = false.
Proof.
  destruct t as [| | |name fields|name fields|type|type|kt vt]; try done;
    intros _; unfold decode; simpl.
  - unfold Struct_parse. destruct (by_field_id x); [|done]. simpl.
    destruct (for_each _ fields); [|done]. simpl. by intros [= <-].
  - unfold Struct_parse. destruct (by_field_id x); [|done]. simpl.
    destruct (for_each _ fields); [|done]. simpl. by intros [= <-].
  - unfold List_parse. destruct (py_iter x); [|done]. simpl.
    destruct (for_each _ _); [|done]. simpl. by intros [= <-].
  - unfold Set_parse. destruct (py_iter x); [|done]. simpl.
    destruct (for_fold _ _ _); [|done]. simpl. by intros [= <-].
  - unfold Map_parse. destruct (py_iter x); [|done]. simpl.
    destruct (for_fold _ _ _); [|done]. simpl. by intros [= <-].
Qed.

(** X7: A set whose element type is a struct, an exception, a list, a set or a
    map is never decoded from a non-empty input: the decoded element cannot
    be hashed, so [Set.parse] raises. *)
Theorem set_parse_composite_raises (type : ty) (x : pyval)
    (xs : list pyval) :
  match type with
  | TStruct _ _ | TExc _ _ | TList _ | TSet _ | TMap _ _ => True
  | _ => False
  end →
  ∃ e, parse (TSet type) (VList (x :: xs)) = Raise e.
Proof.
  intros Htype.
  destruct (parse (TSet type) (VList (x :: xs))) as [r|e] eqn:E; [|eauto].
  exfalso.
  destruct (proj1 (set_parse_returns_iff type (x :: xs)) (ex_intro _ r E))
    as (vs & Hvs & Hh).
  inversion Hvs as [|? v ? vs' Hx Hvs' ]; subst.
  apply Forall_cons in Hh as [Hv _].
  rewrite (parse_composite_unhashable type x v Htype Hx) in Hv. done.
Qed.

Lemma set_parse_composite_raises_witness :
  ∃ e, parse (TSet Sample.Point)
         (VList [VList [VField 1 1 (VInt 3)]]) = Raise e.
Proof.
  exact (set_parse_composite_raises Sample.Point
           (VList [VField 1 1 (VInt 3)]) [] I).
Defined.

(** X8: A map whose key type is a struct, an exception, a list, a set or a map
    is never decoded from a non-empty input either. *)
Theorem map_parse_composite_key_raises (key_type value_type : ty)
    (item : pyval) (items : list pyval) :
  match key_type with
  | TStruct _ _ | TExc _ _ | TList _ | TSet _ | TMap _ _ => True
  | _ => False
  end →
  ∃ e, parse (TMap key_type value_type) (VList (item :: items)) = Raise e.
Proof.
  intros Hkey. simpl. unfold Map_parse. simpl.
  unfold Map_parse_item at 1.
  destruct (unpack2 item) as [[k v]|e]; simpl; [|eauto].
  destruct (decode parse key_type k) as [k'|e] eqn:Ek; simpl; [|eauto].
  destruct (decode parse value_type v) as [v'|e]; simpl; [|eauto].
  unfold dict_setitem.
  rewrite (parse_composite_unhashable key_type k k' Hkey Ek). simpl. eauto.
Qed.

Lemma map_parse_composite_key_raises_witness :
  ∃ e, parse (TMap Sample.Point Sample.i32)
         (VList [VTuple [VList []; VInt 1]]) = Raise e.
Proof.
  exact (map_parse_composite_key_raises Sample.Point Sample.i32
           (VTuple [VList []; VInt 1]) [] I).
Defined.

(** X9: An item of the input of [Map.parse] that does not unpack into exactly a
    key and a value makes it raise, whatever the key and value types. *)
Theorem map_parse_bad_item (key_type value_type : ty)
    (pairs decoded : list (pyval * pyval)) (item : pyval)
    (rest : list pyval) (e : exn) :
  Forall2 (λ p kv, decode parse key_type p.1 = Ok kv.1 ∧
                   decode parse value_type p.2 = Ok kv.2) pairs decoded →
  Forall (λ kv, hashable kv.1 = true) decoded →
  unpack2 item = Raise e →
  parse (TMap key_type value_type)
    (VList (((λ p, VTuple [p.1; p.2]) <$> pairs) ++ item :: rest)) = Raise e.
Proof.
  intros Hdec Hh Hitem. simpl. unfold Map_parse. simpl.
  generalize (@nil (pyval * pyval)) as d.
  induction Hdec as [|p kv pairs decoded [Hk Hv] _ IH]; intros d; simpl.
  - unfold Map_parse_item at 1. by rewrite Hitem.
  - apply Forall_cons in Hh as [Hkv Hh].
    unfold Map_parse_item at 1. simpl. rewrite Hk. simpl. rewrite Hv. simpl.
    unfold dict_setitem. rewrite Hkv. simpl. by apply IH.
Qed.

Lemma map_parse_bad_item_witness :
  unpack2 (VTuple [VInt 1; VInt 2; VInt 3]) = Raise ValueError ∧
  parse (TMap Sample.i32 Sample.i32)
    (VList [VTuple [VInt 1; VInt 10]; VTuple [VInt 1; VInt 2; VInt 3]])
  = Raise ValueError.
Proof.
  split; [reflexivity|].
  apply (map_parse_bad_item Sample.i32 Sample.i32 [(VInt 1, VInt 10)]
           [(VInt 1, VInt 10)] (VTuple [VInt 1; VInt 2; VInt 3]) []
           ValueError).
  - repeat constructor.
  - repeat constructor.
  - reflexivity.
Defined.

Lemma dict_update_keys (d : list (pyval * pyval)) (k v : pyval) :
  (py_key <$> (dict_update d k v).*1 = py_key <$> d.*1 ∧
   py_key k ∈ py_key <$> d.*1) ∨
  (py_key <$> (dict_update d k v).*1 = (py_key <$> d.*1) ++ [py_key k] ∧
   py_key k ∉ py_key <$> d.*1).
Proof.
  induction d as [|[k0 v0] d IH]; cbn [dict_update].
  - right. split; [done|]. apply not_elem_of_nil.
  - destruct (py_eq k0 k) eqn:E; rewrite !fmap_cons; cbn [fst].
    + apply py_eq_key in E. left. split; [done|]. rewrite E. by left.
    + apply py_eq_false in E.
      destruct IH as [[-> Hin]|[-> Hnot]].
      * left. split; [done|]. by right.
      * right. split; [done|]. rewrite not_elem_of_cons. split; congruence.
Qed.

Lemma foldl_dict_update_keys (kvs d : list (pyval * pyval)) :
  NoDup (py_key <$> d.*1) →
  NoDup (py_key <$> (foldl (λ d kv, dict_update d kv.1 kv.2) d kvs).*1) ∧
  ∀ k, k ∈ py_key <$> (foldl (λ d kv, dict_update d kv.1 kv.2) d kvs).*1 ↔
       k ∈ py_key <$> d.*1 ∨ k ∈ py_key <$> kvs.*1.
Proof.
  revert d. induction kvs as [|[k0 v0] kvs IH]; intros d Hnd; simpl.
  - split; [done|]. intros k. rewrite elem_of_nil. tauto.
  - assert (Hstep : NoDup (py_key <$> (dict_update d k0 v0).*1) ∧
                    ∀ k, k ∈ py_key <$> (dict_update d k0 v0).*1 ↔
                         k ∈ py_key <$> d.*1 ∨ k = py_key k0).
    { destruct (dict_update_keys d k0 v0) as [[-> Hin]|[-> Hnot]].
      - split; [done|]. intros k. split; [auto|]. by intros [?| ->].
      - split.
        + apply NoDup_app. split; [done|]. split; [|apply NoDup_singleton].
          intros k Hk ->%list_elem_of_singleton. done.
        + intros k. by rewrite elem_of_app, list_elem_of_singleton. }
    destruct Hstep as [Hnd' Hk']. destruct (IH _ Hnd') as [Hnd'' Hk''].
    split; [done|]. intros k. rewrite Hk'', Hk', elem_of_cons. tauto.
Qed.

(** X10: The mapping [Map.parse] returns holds exactly one entry per distinct
    decoded key: its size is the number of distinct decoded keys and no two
    of its keys are equal. *)
Theorem map_parse_one_entry_per_key (key_type value_type : ty)
    (pairs decoded : list (pyval * pyval)) :
  Forall2 (λ p kv, decode parse key_type p.1 = Ok kv.1 ∧
                   decode parse value_type p.2 = Ok kv.2) pairs decoded →
  Forall (λ kv, hashable kv.1 = true) decoded →
  ∃ d, parse (TMap key_type value_type)
         (VList ((λ p, VTuple [p.1; p.2]) <$> pairs)) = Ok (VDict d) ∧
       length d = count_distinct decoded.*1 ∧
       (∀ i j a b, d.*1 !! i = Some a → d.*1 !! j = Some b →
                   py_eq a b = true → i = j).
Proof.
  intros Hdec Hh.
  exists (foldl (λ d kv, dict_update d kv.1 kv.2) [] decoded).
  destruct (foldl_dict_update_keys decoded []) as [Hnd Hk];
    [apply NoDup_nil_2|].
  split; [|split].
  - simpl. unfold Map_parse. simpl.
    by rewrite (map_parse_fold _ _ pairs decoded [] Hdec Hh).
  - rewrite <- (length_fmap fst), <- (length_fmap py_key).
    apply count_distinct_keys; [done|].
    intros k. rewrite Hk. simpl. rewrite elem_of_nil. tauto.
  - intros i j a b Hi Hj Hab. apply py_eq_key in Hab.
    eapply NoDup_lookup; [exact Hnd| |].
    + rewrite list_lookup_fmap, Hi. reflexivity.
    + rewrite list_lookup_fmap, Hj, Hab. reflexivity.
Qed.

Lemma map_parse_one_entry_per_key_witness :
  let pairs := [(VInt 1, VInt 10); (VStr "k", VInt 5); (VBool true, VInt 20)] in
  Forall2 (λ p kv, decode parse Sample.i32 p.1 = Ok kv.1 ∧
                   decode parse Sample.i32 p.2 = Ok kv.2) pairs pairs ∧
  Forall (λ kv, hashable kv.1 = true) pairs ∧
  ∃ d, parse (TMap Sample.i32 Sample.i32)
         (VList ((λ p, VTuple [p.1; p.2]) <$> pairs)) = Ok (VDict d) ∧
       length d = 2%nat.
Proof.
  intros pairs.
  assert (Hdec : Forall2 (λ p kv, decode parse Sample.i32 p.1 = Ok kv.1 ∧
                   decode parse Sample.i32 p.2 = Ok kv.2) pairs pairs)
    by (repeat constructor).
  assert (Hh : Forall (λ kv, hashable kv.1 = true) pairs)
    by (repeat constructor).
  split; [exact Hdec|]. split; [exact Hh|].
  destruct (map_parse_one_entry_per_key Sample.i32 Sample.i32 pairs pairs
              Hdec Hh) as (d & Hd & Hlen & _).
  exists d. split; [exact Hd|exact Hlen].
Defined.

(** ** Structs on arbitrary input *)

(** X11: Whatever [Struct.parse] is given, a result it returns is the struct's
    name paired with one (field name, value) pair per declared field, in
    declaration order. *)
Theorem struct_parse_shape (name : string) (fields : list (Field.t ty))
    (raw r : pyval) :
  parse (TStruct name fields) raw = Ok r →
  ∃ values, length values = length fields ∧
            r = VTuple [VStr name; VList (zip_with named fields values)].
Proof.
  simpl. unfold Struct_parse.
  destruct (by_field_id raw) as [m|e]; [|done]. simpl.
  destruct (for_each (Struct_parse_field parse m) fields) as [ps|e] eqn:E;
    [|done].
  simpl. intros [= <-]. apply for_each_Forall2 in E.
  assert (Hps : ∃ values, length values = length fields ∧
                          ps = zip_with named fields values).
  { clear -E. induction E as [|fd p fields ps Hp _ IH].
    - by exists [].
    - destruct IH as (values & Hlen & ->).
      unfold Struct_parse_field in Hp.
      destruct (match m !! Field.tag fd with Some _ => _ | None => _ end)
        as [v|e]; [|done].
      simpl in Hp. injection Hp as <-.
      exists (v :: values). simpl. by rewrite Hlen. }
  destruct Hps as (values & Hlen & ->). eauto.
Qed.

Lemma struct_parse_shape_witness :
  ∃ values, length values = 2%nat ∧
    VTuple [VStr "Point"; VList [VTuple [VStr "x"; VNone];
                                 VTuple [VStr "color"; VNone]]] =
    VTuple [VStr "Point";
            VList (zip_with named
                     [Field.mk 1 "x" true Sample.i32;
                      Field.mk 2 "color" false Sample.Color] values)].
Proof.
  exact (struct_parse_shape "Point"
           [Field.mk 1 "x" true Sample.i32;
            Field.mk 2 "color" false Sample.Color] (VStr "") _ eq_refl).
Defined.

Lemma by_field_id_not_field (raw : pyval) (xs : list pyval) (x : pyval) :
  py_iter raw = Ok xs → x ∈ xs → is_field x = false →
  by_field_id raw = Raise AttributeError.
Proof.
  intros Hraw Hx Hnf. unfold by_field_id. rewrite Hraw. simpl. clear Hraw.
  generalize (∅ : gmap Z pyval) as m.
  induction xs as [|y xs IH]; intros m; [by apply elem_of_nil in Hx|].
  simpl. destruct y as [| | | | | | | |o f v]; try done. simpl.
  apply IH. apply elem_of_cons in Hx as [->|Hx]; [discriminate Hnf|done].
Qed.

(** X12: An item of the raw input that is not an entry makes [Struct.parse] raise
    [AttributeError], declared fields or not; an input that cannot be
    iterated makes it raise [TypeError]. *)
Theorem struct_parse_not_entries (name : string) (fields : list (Field.t ty))
    (raw : pyval) :
  (∀ xs x, py_iter raw = Ok xs → x ∈ xs → is_field x = false →
           parse (TStruct name fields) raw = Raise AttributeError) ∧
  (py_iter raw = Raise TypeError →
   parse (TStruct name fields) raw = Raise TypeError).
Proof.
  simpl. unfold Struct_parse. split.
  - intros xs x Hraw Hx Hnf.
    by rewrite (by_field_id_not_field raw xs x Hraw Hx Hnf).
  - intros Hraw. unfold by_field_id. by rewrite Hraw.
Qed.

Lemma struct_parse_not_entries_witness :
  parse (TStruct "Empty" []) (VStr "ab") = Raise AttributeError ∧
  parse (TStruct "Empty" []) (VInt 3) = Raise TypeError.
Proof.
  split.
  - apply (proj1 (struct_parse_not_entries "Empty" [] (VStr "ab"))
             [VStr "a"; VStr "b"] (VStr "b") eq_refl); [|reflexivity].
    apply elem_of_cons. right. by left.
  - exact (proj2 (struct_parse_not_entries "Empty" [] (VInt 3)) eq_refl).
Defined.

(** X13: On a list of entries [Struct.parse] returns exactly when every entry it
    looks up decodes through its field's type. *)
Theorem struct_parse_returns_iff (name : string)
    (fields : list (Field.t ty)) (raw : list pyval) :
  Forall (λ x, is_field x) raw →
  ((∃ r, parse (TStruct name fields) (VList raw) = Ok r) ↔
   ∀ fd r, fd ∈ fields → tagged_value (Field.tag fd) raw = Some r →
           ∃ v, decode parse (Field.type fd) r = Ok v).
Proof.
  intros Hraw. simpl. rewrite Struct_parse_ref by done.
  unfold struct_decode_ref. split.
  - intros [r0 Hr0] fd r Hfd Hr.
    destruct (for_each (field_pair_ref raw) fields) as [ps|e] eqn:E; [|done].
    destruct (for_each_ok_elem _ _ _ fd E Hfd) as [p Hp].
    unfold field_pair_ref in Hp. rewrite Hr in Hp.
    destruct (decode parse (Field.type fd) r) as [v|e]; [eauto|done].
  - intros Hdec. destruct (field_pairs_ref raw fields Hdec) as (vs & -> & _).
    simpl. eauto.
Qed.

Lemma struct_parse_returns_iff_witness :
  let raw := [VField 1 2 (VInt 9)] in
  Forall (λ x, is_field x) raw ∧
  ¬ ∃ r, parse Sample.Point (VList raw) = Ok r.
Proof.
  intros raw.
  assert (Hraw : Forall (λ x, is_field x) raw) by (repeat constructor).
  split; [exact Hraw|]. intros Hok.
  destruct (proj1 (struct_parse_returns_iff "Point"
                     [Field.mk 1 "x" true Sample.i32;
                      Field.mk 2 "color" false Sample.Color] raw Hraw) Hok
              (Field.mk 2 "color" false Sample.Color) (VInt 9))
    as [v Hv].
  - apply elem_of_cons. right. by left.
  - reflexivity.
  - discriminate Hv.
Defined.

(** ** Structs: the order of the entries *)

Lemma filter_has_tag_short (tag : Z) (raw : list pyval) :
  NoDup (entry_tags raw) →
  (length (filter (λ x, has_tag tag x) raw) ≤ 1)%nat.
Proof.
  unfold entry_tags. induction raw as [|x raw IH]; intros Hnd; [simpl; lia|].
  rewrite filter_cons. destruct (has_tag tag x) eqn:Ht; case_decide; try done.
  - destruct x as [| | | | | | | |o f v]; try done. simpl in Ht, Hnd.
    apply Z.eqb_eq in Ht. subst f. apply NoDup_cons in Hnd as [Hnot Hnd].
    destruct (filter (λ x, has_tag tag x) raw) as [|y r] eqn:E; [simpl; lia|].
    exfalso. apply Hnot.
    assert (Hy : y ∈ filter (λ x, has_tag tag x) raw) by (rewrite E; by left).
    apply list_elem_of_filter in Hy as [Hty Hy].
    apply list_elem_of_omap. exists y. split; [done|].
    destruct y; try done. simpl in Hty. apply Is_true_true, Z.eqb_eq in Hty.
    by subst.
  - apply IH. destruct x; simpl in Hnd; try done.
    by apply NoDup_cons in Hnd as [_ Hnd].
Qed.

Lemma last_with_tag_Permutation (tag : Z) (raw raw' : list pyval) :
  NoDup (entry_tags raw) → raw ≡ₚ raw' →
  last_with_tag tag raw = last_with_tag tag raw'.
Proof.
  intros Hnd Hperm. unfold last_with_tag.
  assert (Hf : filter (λ x, has_tag tag x) raw ≡ₚ
               filter (λ x, has_tag tag x) raw') by (by rewrite Hperm).
  pose proof (filter_has_tag_short tag raw Hnd) as Hlen.
  destruct (filter (λ x, has_tag tag x) raw) as [|y [|z r]]; simpl in Hlen;
    [| |lia].
  - by apply Permutation_nil_l in Hf as <-.
  - by apply Permutation_singleton_l in Hf as <-.
Qed.

(** X14: When the entries carry pairwise distinct tags their order does not
    matter: [Struct.parse] gives the same result, or raises the same
    exception, on every rearrangement of them. *)
Theorem struct_parse_order_irrelevant (name : string)
    (fields : list (Field.t ty)) (raw raw' : list pyval) :
  Forall (λ x, is_field x) raw → NoDup (entry_tags raw) → raw ≡ₚ raw' →
  parse (TStruct name fields) (VList raw) =
  parse (TStruct name fields) (VList raw').
Proof.
  intros Hraw Hnd Hperm. simpl.
  assert (Hraw' : Forall (λ x, is_field x) raw') by (by rewrite <- Hperm).
  rewrite !Struct_parse_ref by done.
  apply struct_decode_ref_ext. intros fd _. unfold tagged_value.
  by rewrite (last_with_tag_Permutation _ raw raw').
Qed.

Lemma struct_parse_order_irrelevant_witness :
  let raw := [VField 1 1 (VInt 3); VField 2 2 (VInt 1)] in
  let raw' := [VField 2 2 (VInt 1); VField 1 1 (VInt 3)] in
  Forall (λ x, is_field x) raw ∧ NoDup (entry_tags raw) ∧ raw ≡ₚ raw' ∧
  parse Sample.Point (VList raw) = parse Sample.Point (VList raw').
Proof.
  intros raw raw'.
  assert (Hraw : Forall (λ x, is_field x) raw) by (repeat constructor).
  assert (Hnd : NoDup (entry_tags raw)).
  { simpl. apply NoDup_cons. split; [|apply NoDup_singleton].
    rewrite list_elem_of_singleton. lia. }
  assert (Hperm : raw ≡ₚ raw') by apply perm_swap.
  split; [exact Hraw|]. split; [exact Hnd|]. split; [exact Hperm|].
  exact (struct_parse_order_irrelevant "Point" _ raw raw' Hraw Hnd Hperm).
Defined.

(** ** Calls and replies that fall back *)

Lemma for_each_elem_raise {A B : Type} (f : A → result B) (l : list A)
    (x : A) (e : exn) :
  x ∈ l → f x = Raise e → ∃ e', for_each f l = Raise e'.
Proof.
  intros Hx Hf. destruct (for_each f l) as [ys|e'] eqn:E; [|eauto].
  destruct (for_each_ok_elem f l ys x E Hx) as [y Hy]. congruence.
Qed.

(** X15: A call that lacks an entry for a declared argument, or carries one whose
    value does not decode, comes back as its raw entries. *)
Theorem get_args_call_fallback (self : Function.t) (msg : Msg.t)
    (arg : Field.t ty) :
  Msg.type msg = "call" →
  Forall (λ x, is_field x) (Msg.args msg) →
  arg ∈ Function.arguments self →
  (∀ r, tagged_value (Field.tag arg) (Msg.args msg) = Some r →
        ∃ e, decode parse (Field.type arg) r = Raise e) →
  Function.get_args self msg = Ok (VList (Msg.args msg)).
Proof.
  intros Hcall Hargs Harg Hbad.
  unfold Function.get_args, Function.get_args_try. rewrite Hcall. simpl.
  unfold Function.get_args_call.
  destruct (by_field_id_entries _ Hargs) as (m & -> & Hm). simpl.
  assert (Hraise : ∃ e, Function.get_args_arg m arg = Raise e).
  { unfold Function.get_args_arg. rewrite Hm.
    destruct (tagged_value (Field.tag arg) (Msg.args msg)) as [r|] eqn:Et.
    - rewrite (tagged_value_entry _ _ _ Et). simpl.
      destruct (Hbad r eq_refl) as [e ->]. simpl. eauto.
    - unfold tagged_value in Et.
      destruct (last_with_tag _ _) as [x|] eqn:El; [|simpl; eauto].
      apply last_with_tag_has_tag in El as [Ht _]. by destruct x. }
  destruct Hraise as [e He].
  destruct (for_each_elem_raise _ _ arg e Harg He) as [e' ->]. done.
Qed.

Lemma get_args_call_fallback_witness :
  let msg := Msg.mk "call" [VField 1 1 (VInt 3)] in
  Msg.type msg = "call" ∧
  Forall (λ x, is_field x) (Msg.args msg) ∧
  tagged_value 2 (Msg.args msg) = None ∧
  Function.get_args Sample.add msg = Ok (VList [VField 1 1 (VInt 3)]).
Proof.
  intros msg.
  assert (Hargs : Forall (λ x, is_field x) (Msg.args msg))
    by (repeat constructor).
  split; [reflexivity|]. split; [exact Hargs|]. split; [reflexivity|].
  apply (get_args_call_fallback Sample.add msg
           (Field.mk 2 "b" true Sample.i32) eq_refl Hargs).
  - apply elem_of_cons. right. by left.
  - intros r Hr. discriminate Hr.
Defined.

(** X16: A reply without entries, and a reply whose first entry carries a tag
    that is neither 0 nor the tag of a declared throw, come back as their
    raw entries. *)
Theorem get_args_reply_fallback (self : Function.t) :
  Function.get_args self (Msg.mk "reply" []) = Ok (VList []) ∧
  (∀ o field_id r rest,
     field_id ≠ 0 →
     field_id ∉ Field.tag <$> Function.throws self →
     Function.get_args self (Msg.mk "reply" (VField o field_id r :: rest))
     = Ok (VList (VField o field_id r :: rest))).
Proof.
  split; [done|]. intros o field_id r rest Hne Hnot.
  unfold Function.get_args, Function.get_args_try. simpl.
  unfold Function.get_args_reply. simpl.
  apply Z.eqb_neq in Hne. rewrite Hne. unfold Function.throws_by_tags.
  by rewrite dict_of_lookup, filter_nil_not_elem.
Qed.

Lemma get_args_reply_fallback_witness :
  Function.get_args Sample.add (Msg.mk "reply" [VField 1 5 (VInt 7)])
  = Ok (VList [VField 1 5 (VInt 7)]).
Proof.
  apply (proj2 (get_args_reply_fallback Sample.add) 1%positive 5 (VInt 7) []);
    [lia|].
  simpl. rewrite not_elem_of_cons. split; [lia|apply not_elem_of_nil].
Defined.

(** ** Lookup in the catalogue *)

(** X17: What [get_function] finds under a name is a function of the list that
    carries that name, and it finds one under the name of every function of
    the list. *)
Theorem get_function_declared (self : Idl.t) :
  (∀ name f, Idl.get_function self name = Some f →
             f ∈ Idl.functions self ∧ Function.name f = name) ∧
  (∀ f, f ∈ Idl.functions self →
        ∃ g, Idl.get_function self (Function.name f) = Some g ∧
             Function.name g = Function.name f).
Proof.
  unfold Idl.get_function, Idl.functions_by_name.
  assert (Hsound : ∀ name f,
            dict_of Function.name (Idl.functions self) !! name = Some f →
            f ∈ Idl.functions self ∧ Function.name f = name).
  { intros name f. rewrite dict_of_lookup. intros [l' Hl]%last_Some.
    assert (Hin : f ∈ filter (λ x, Function.name x = name)
                         (Idl.functions self)).
    { rewrite Hl. apply elem_of_app. right. by left. }
    by apply list_elem_of_filter in Hin as [? ?]. }
  split; [exact Hsound|]. intros f Hf.
  destruct (dict_of Function.name (Idl.functions self) !! Function.name f)
    as [g|] eqn:E.
  - exists g. split; [done|]. by apply (Hsound _ _ E).
  - exfalso. rewrite dict_of_lookup in E. apply last_None in E.
    assert (Hin : f ∈ filter (λ x, Function.name x = Function.name f)
                         (Idl.functions self))
      by (by apply list_elem_of_filter).
    rewrite E in Hin. by apply elem_of_nil in Hin.
Qed.

Lemma get_function_declared_witness :
  ∃ g, Idl.get_function (Idl.mk [Sample.add; Sample.ping; Sample.add'])
         "add" = Some g ∧ Function.name g = "add".
Proof.
  apply (proj2 (get_function_declared
                  (Idl.mk [Sample.add; Sample.ping; Sample.add']))
           Sample.add).
  simpl. by left.
Defined.

(** X18: When the functions of the list carry pairwise distinct names, each of
    them is what [get_function] finds under its name. *)
Theorem get_function_distinct_names (self : Idl.t) (f : Function.t) :
  NoDup (Function.name <$> Idl.functions self) →
  f ∈ Idl.functions self →
  Idl.get_function self (Function.name f) = Some f.
Proof.
  intros Hnd Hf. unfold Idl.get_function, Idl.functions_by_name.
  by rewrite dict_of_lookup, filter_key_NoDup.
Qed.

Lemma get_function_distinct_names_witness :
  NoDup (Function.name <$> [Sample.add; Sample.ping]) ∧
  Idl.get_function (Idl.mk [Sample.add; Sample.ping]) "add"
  = Some Sample.add.
Proof.
  assert (Hnd : NoDup (Function.name <$>
                         Idl.functions (Idl.mk [Sample.add; Sample.ping]))).
  { simpl. apply NoDup_cons. split; [|apply NoDup_singleton].
    rewrite list_elem_of_singleton. discriminate. }
  split; [exact Hnd|].
  apply (get_function_distinct_names (Idl.mk [Sample.add; Sample.ping])
           Sample.add Hnd).
  simpl. by left.
Defined.

(** * Properties of the catalogue builder *)

(** ** Resolving types *)

Lemma resolve_type_cases (reg : gmap string named_type) (type : ast.type) :
  ((∀ n, n ∈ identifiers type → is_Some (reg !! n)) ∧
   ∃ r, resolve_type reg type = Ok r) ∨
  ((∃ n, n ∈ identifiers type ∧ reg !! n = None) ∧
   resolve_type reg type = Raise KeyError).
Proof.
  induction type as [value|vt IH|vt IH|kt IHk vt IHv|node]; simpl.
  - destruct (reg !! value) as [[name t|t]|] eqn:E.
    + left. split; [|eauto]. intros n ->%list_elem_of_singleton. by rewrite E.
    + left. split; [|eauto]. intros n ->%list_elem_of_singleton. by rewrite E.
    + right. split; [|done]. exists value. split; [by left|done].
  - destruct IH as [[Hall [r ->]]|[Hex ->]]; [left|right]; simpl; eauto.
  - destruct IH as [[Hall [r ->]]|[Hex ->]]; [left|right]; simpl; eauto.
  - destruct IHk as [[Hallk [rk ->]]|[(n & Hn & Hreg) ->]]; simpl.
    + destruct IHv as [[Hallv [rv ->]]|[(n & Hn & Hreg) ->]]; simpl.
      * left. split; [|eauto]. intros n [?|?]%elem_of_app; auto.
      * right. split; [|done]. exists n. rewrite elem_of_app. auto.
    + right. split; [|done]. exists n. rewrite elem_of_app. auto.
  - left. split; [|eauto]. intros n Hn. by apply elem_of_nil in Hn.
Qed.

(** X19: [resolve_type] returns exactly when every name the type node refers to
    is registered, and raises [KeyError] exactly when one of them is not,
    however deep inside containers the name occurs. *)
Theorem resolve_type_registered (reg : gmap string named_type)
    (type : ast.type) :
  ((∃ r, resolve_type reg type = Ok r) ↔
   ∀ n, n ∈ identifiers type → is_Some (reg !! n)) ∧
  (resolve_type reg type = Raise KeyError ↔
   ∃ n, n ∈ identifiers type ∧ reg !! n = None).
Proof.
  destruct (resolve_type_cases reg type)
    as [[Hall [r Hr]]|[(n & Hn & Hreg) Hraise]].
  - rewrite Hr. split; split; try done; [eauto|].
    intros (n & Hn & Hreg). destruct (Hall n Hn) as [x Hx]. congruence.
  - rewrite Hraise. split; split; try done; [by intros [r Hr]| |eauto].
    intros Hall. destruct (Hall n Hn) as [x Hx]. congruence.
Qed.

Lemma resolve_field_raise (reg : gmap string named_type)
    (is_required : ast.Field → bool) (field_ast : ast.Field) (e : exn) :
  resolve_field reg is_required field_ast = Raise e → e = KeyError.
Proof.
  unfold resolve_field.
  destruct (resolve_type_cases reg (ast.field_type field_ast))
    as [[_ [r ->]]|[_ ->]]; simpl; congruence.
Qed.

Lemma for_each_raise_only {A B : Type} (f : A → result B) (l : list A)
    (x : A) (e0 : exn) :
  (∀ y e, f y = Raise e → e = e0) →
  x ∈ l → f x = Raise e0 → for_each f l = Raise e0.
Proof.
  intros Honly Hx Hfx.
  destruct (for_each_elem_raise f l x e0 Hx Hfx) as [e' He'].
  rewrite He'. f_equal. clear x Hx Hfx.
  induction l as [|y l IH]; simpl in He'; [done|].
  destruct (f y) as [b|e] eqn:Ey; simpl in He'.
  - destruct (for_each f l) as [bs|e]; simpl in He'; [done|].
    injection He' as <-. by apply IH.
  - injection He' as <-. by apply (Honly y).
Qed.

(** X20: A struct whose field refers to a name that is not registered yet cannot
    be read: [parse_body] raises [KeyError], whatever follows in the body.
    A struct with a field of its own type is such a struct, unless the name
    was registered before. *)
Theorem struct_unregistered_name (st : builder) (name : string)
    (fields : list ast.Field) (rest : list ast.body_part)
    (field_ast : ast.Field) (n : string) :
  field_ast ∈ fields →
  n ∈ identifiers (ast.field_type field_ast) →
  types_by_name st !! n = None →
  parse_body st (ast.Struct name fields :: rest) = Raise KeyError.
Proof.
  intros Hfield Hn Hreg. unfold parse_body. simpl.
  rewrite (for_each_raise_only _ fields field_ast KeyError); [done| |done|].
  - intros y e. apply resolve_field_raise.
  - unfold resolve_field.
    destruct (resolve_type_cases (types_by_name st)
                (ast.field_type field_ast)) as [[Hall _]|[_ ->]]; [|done].
    destruct (Hall n Hn) as [x Hx]. congruence.
Qed.

Lemma struct_unregistered_name_witness :
  parse_body (mkBuilder [] ∅) [SampleTree.Tree; ast.Other] = Raise KeyError.
Proof.
  apply (struct_unregistered_name (mkBuilder [] ∅) "Tree" _ [ast.Other]
           (ast.mkField 2 "children" false
              (ast.List (ast.Identifier "Tree"))) "Tree").
  - apply elem_of_cons. right. by left.
  - simpl. by left.
  - apply lookup_empty.
Defined.

(** ** Aliases *)

Lemma parse_body_app (st : builder) (body1 body2 : list ast.body_part) :
  parse_body st (body1 ++ body2) =
  let* st1 := parse_body st body1 in parse_body st1 body2.
Proof.
  unfold parse_body. revert st.
  induction body1 as [|part body1 IH]; intros st; simpl; [done|].
  destruct (parse_body_part st part) as [st1|e]; simpl; [apply IH|done].
Qed.

Lemma alias_chain_resolves (names : list string) (st : builder)
    (type : ast.type) (t : ty) :
  resolve_type (types_by_name st) type = Ok t →
  ∃ st', parse_body st (alias_chain type names) = Ok st' ∧
         functions st' = functions st ∧
         (∀ n, n ∈ names →
               resolve_type (types_by_name st') (ast.Identifier n) = Ok t) ∧
         (∀ n, n ∉ names →
               types_by_name st' !! n = types_by_name st !! n).
Proof.
  revert st type. induction names as [|name names IH]; intros st type Ht.
  - exists st. split; [done|]. split; [done|]. split; [|done].
    intros n Hn. by apply elem_of_nil in Hn.
  - unfold parse_body. simpl. rewrite Ht. simpl.
    set (st1 := mkBuilder (functions st)
                  (<[name := TypeDef name t]> (types_by_name st))).
    destruct (IH st1 (ast.Identifier name)) as (st' & Hst' & Hf & Hin & Hout).
    { simpl. by rewrite lookup_insert_eq. }
    exists st'. split; [exact Hst'|]. split; [done|]. split.
    + intros n Hn. destruct (decide (n ∈ names)) as [Hnames|Hnames];
        [by apply Hin|].
      apply elem_of_cons in Hn as [->|Hn]; [|done].
      simpl. rewrite (Hout name Hnames). simpl. by rewrite lookup_insert_eq.
    + intros n Hn. apply not_elem_of_cons in Hn as [Hne Hn].
      rewrite (Hout n Hn). simpl. by rewrite lookup_insert_ne.
Qed.

(** X21: An alias of an alias of ... of a type resolves to what the type itself
    resolved to: after a chain of typedefs, each naming the one before,
    every alias of the chain resolves to the resolved first target, and no
    other name is touched. *)
Theorem typedef_chain_resolves (names : list string) (st : builder)
    (type : ast.type) (t : ty) :
  resolve_type (types_by_name st) type = Ok t →
  ∃ st', parse_body st (alias_chain type names) = Ok st' ∧
         (∀ n, n ∈ names →
               resolve_type (types_by_name st') (ast.Identifier n) = Ok t) ∧
         (∀ n, n ∉ names →
               types_by_name st' !! n = types_by_name st !! n).
Proof.
  intros Ht.
  destruct (alias_chain_resolves names st type t Ht)
    as (st' & Hst' & _ & Hin & Hout).
  eauto.
Qed.

Lemma typedef_chain_resolves_witness :
  ∃ st', parse_body (mkBuilder [] ∅)
           (alias_chain (ast.List SampleTree.i32) ["A"; "B"; "C"]) = Ok st' ∧
         resolve_type (types_by_name st') (ast.Identifier "C")
         = Ok (TList (AstNode "i32")).
Proof.
  destruct (typedef_chain_resolves ["A"; "B"; "C"] (mkBuilder [] ∅)
              (ast.List SampleTree.i32) (TList (AstNode "i32")) eq_refl)
    as (st' & Hst' & Hin & _).
  exists st'. split; [exact Hst'|]. apply Hin.
  apply elem_of_cons. right. apply elem_of_cons. right. by left.
Defined.

(** ** Structs and functions as declared *)

Lemma resolve_fields_mirror (reg : gmap string named_type)
    (is_required : ast.Field → bool) (fields_ast : list ast.Field)
    (fields : list (Field.t ty)) :
  for_each (resolve_field reg is_required) fields_ast = Ok fields →
  Forall2 (λ field_ast field,
             Field.tag field = ast.field_tag field_ast ∧
             Field.name field = ast.field_name field_ast ∧
             Field.is_required field = is_required field_ast ∧
             resolve_type reg (ast.field_type field_ast)
             = Ok (Field.type field))
    fields_ast fields.
Proof.
  intros Hfor. apply for_each_Forall2 in Hfor.
  eapply Forall2_impl; [exact Hfor|]. intros field_ast field.
  unfold resolve_field.
  destruct (resolve_type reg (ast.field_type field_ast)); [|done].
  simpl. by intros [= <-].
Qed.

(** X22: A struct that is read is registered under its name with its fields in
    declaration order, each with the declared tag, name and required flag
    and with its type resolved against the names registered before the
    struct. *)
Theorem struct_registered_as_declared (st st' : builder) (name : string)
    (fields_ast : list ast.Field) :
  parse_body_part st (ast.Struct name fields_ast) = Ok st' →
  ∃ fields,
    types_by_name st' !! name = Some (IsType (TStruct name fields)) ∧
    Forall2 (λ field_ast field,
               Field.tag field = ast.field_tag field_ast ∧
               Field.name field = ast.field_name field_ast ∧
               Field.is_required field = ast.field_required field_ast ∧
               resolve_type (types_by_name st) (ast.field_type field_ast)
               = Ok (Field.type field))
      fields_ast fields.
Proof.
  simpl.
  destruct (for_each _ fields_ast) as [fields|e] eqn:E; [|done].
  simpl. intros [= <-]. exists fields. split.
  - simpl. apply lookup_insert_eq.
  - by apply resolve_fields_mirror.
Qed.

Lemma struct_registered_as_declared_witness :
  ∃ fields,
    <[ "P" := IsType (TStruct "P" [Field.mk 7 "x" true (AstNode "i32")]) ]>
      (∅ : gmap string named_type) !! "P"
    = Some (IsType (TStruct "P" fields)) ∧
    Forall2 (λ field_ast field,
               Field.tag field = ast.field_tag field_ast ∧
               Field.name field = ast.field_name field_ast ∧
               Field.is_required field = ast.field_required field_ast ∧
               resolve_type ∅ (ast.field_type field_ast)
               = Ok (Field.type field))
      [ast.mkField 7 "x" true SampleTree.i32] fields.
Proof.
  exact (struct_registered_as_declared (mkBuilder [] ∅) _ "P"
           [ast.mkField 7 "x" true SampleTree.i32] eq_refl).
Defined.

Lemma service_fold (reg : gmap string named_type)
    (service_functions : list ast.Function) (fs fs' : list Function.t) :
  for_fold (λ functions function_ast,
              let* function := parse_function reg function_ast in
              Ok (functions ++ [function]))
    fs service_functions = Ok fs' →
  ∃ new, fs' = fs ++ new ∧
         Forall2 (λ function_ast f, parse_function reg function_ast = Ok f)
           service_functions new.
Proof.
  revert fs. induction service_functions as [|function_ast l IH]; intros fs.
  - simpl. intros [= <-]. exists []. split; [by rewrite app_nil_r|constructor].
  - intros (fs1 & Hstep & Hrest)%for_fold_cons_ok.
    destruct (parse_function reg function_ast) as [f|e] eqn:Ef; [|done].
    simpl in Hstep. injection Hstep as <-.
    destruct (IH _ Hrest) as (new & -> & Hnew).
    exists (f :: new). split; [by rewrite <- app_assoc|]. by constructor.
Qed.

(** X23: The functions of a service that is read are appended to the functions
    collected so far, in declaration order, each with the declared name; its
    arguments carry the declared tags and names and are all required, its
    throws carry the declared tags and names and are all optional, whatever
    the declarations say, and every type is resolved against the registered
    names. *)
Theorem service_functions_as_declared (st st' : builder)
    (service_functions : list ast.Function) :
  parse_body_part st (ast.Service service_functions) = Ok st' →
  types_by_name st' = types_by_name st ∧
  ∃ new,
    functions st' = functions st ++ new ∧
    Forall2 (λ function_ast f,
               Function.name f = ast.function_name function_ast ∧
               Forall2 (λ field_ast field,
                          Field.tag field = ast.field_tag field_ast ∧
                          Field.name field = ast.field_name field_ast ∧
                          Field.is_required field = true ∧
                          resolve_type (types_by_name st)
                            (ast.field_type field_ast) = Ok (Field.type field))
                 (ast.function_arguments function_ast) (Function.arguments f) ∧
               Forall2 (λ field_ast field,
                          Field.tag field = ast.field_tag field_ast ∧
                          Field.name field = ast.field_name field_ast ∧
                          Field.is_required field = false ∧
                          resolve_type (types_by_name st)
                            (ast.field_type field_ast) = Ok (Field.type field))
                 (ast.function_throws function_ast) (Function.throws f) ∧
               resolve_type (types_by_name st)
                 (ast.function_type function_ast) = Ok (Function.type f))
      service_functions new.
Proof.
  simpl.
  destruct (for_fold _ (functions st) service_functions) as [fs'|e] eqn:E;
    [|done].
  simpl. intros [= <-]. split; [done|].
  destruct (service_fold _ _ _ _ E) as (new & -> & Hnew).
  exists new. split; [done|].
  eapply Forall2_impl; [exact Hnew|]. intros function_ast f.
  unfold parse_function.
  destruct (for_each _ (ast.function_arguments function_ast))
    as [arguments|e] eqn:Ea; [|done].
  simpl.
  destruct (for_each _ (ast.function_throws function_ast))
    as [throws|e] eqn:Et; [|done].
  simpl.
  destruct (resolve_type _ (ast.function_type function_ast)) as [t|e];
    [|done].
  simpl. intros [= <-]. simpl. split; [done|].
  split; [by apply (resolve_fields_mirror _ _ _ _ Ea)|].
  split; [by apply (resolve_fields_mirror _ _ _ _ Et)|done].
Qed.

Lemma service_functions_as_declared_witness :
  let st := mkBuilder [Sample.paint]
              {[ "Err" := IsType Sample.Err ]} in
  ∃ st', parse_body_part st (ast.Service [SampleFiles.add]) = Ok st' ∧
         ∃ f, functions st' = [Sample.paint; f] ∧
              Function.name f = "add" ∧
              Field.is_required <$> Function.arguments f = [true; true] ∧
              Field.is_required <$> Function.throws f = [false] ∧
              Field.tag <$> Function.arguments f = [1; 2] ∧
              Field.type <$> Function.throws f = [Sample.Err].
Proof.
  intros st.
  destruct (parse_body_part st (ast.Service [SampleFiles.add]))
    as [st'|e] eqn:E; [|discriminate E].
  exists st'. split; [reflexivity|].
  destruct (service_functions_as_declared st st' [SampleFiles.add] E)
    as (_ & new & Hnew & Hall).
  inversion Hall as [|function_ast f l new' Hf Hrest]; subst.
  inversion Hrest; subst. clear Hall Hrest.
  destruct Hf as (Hname & Hargs & Hthrows & _).
  exists f. split; [exact Hnew|]. split; [exact Hname|].
  inversion Hargs as [|a1 x1 l1 k1 (Ht1 & _ & Hr1 & _) Hargs1]; subst.
  inversion Hargs1 as [|a2 x2 l2 k2 (Ht2 & _ & Hr2 & _) Hargs2]; subst.
  inversion Hargs2; subst.
  inversion Hthrows as [|a3 x3 l3 k3 (_ & _ & Hr3 & Hty3) Hthrows1]; subst.
  inversion Hthrows1; subst.
  simpl in Hty3. injection Hty3 as Hty3.
  simpl. rewrite Hr1, Hr2, Hr3, Ht1, Ht2, <- Hty3. repeat split.
Defined.

Lemma parse_function_name (reg : gmap string named_type)
    (function_ast : ast.Function) (f : Function.t) :
  parse_function reg function_ast = Ok f →
  Function.name f = ast.function_name function_ast.
Proof.
  unfold parse_function.
  destruct (for_each _ (ast.function_arguments function_ast)); [|done].
  simpl.
  destruct (for_each _ (ast.function_throws function_ast)); [|done].
  simpl.
  destruct (resolve_type _ (ast.function_type function_ast)); [|done].
  simpl. by intros [= <-].
Qed.

Lemma parse_body_part_appends (st st' : builder) (part : ast.body_part) :
  parse_body_part st part = Ok st' →
  ∃ new, functions st' = functions st ++ new ∧
         Function.name <$> new = declared_functions [part].
Proof.
  unfold declared_functions. simpl. rewrite app_nil_r.
  destruct part as [name type|name values|name fields|name fields|fns|];
    simpl.
  - destruct (resolve_type _ type); [|done]. simpl. intros [= <-].
    exists []. by rewrite app_nil_r.
  - intros [= <-]. exists []. by rewrite app_nil_r.
  - destruct (for_each _ fields); [|done]. simpl. intros [= <-].
    exists []. by rewrite app_nil_r.
  - destruct (for_each _ fields); [|done]. simpl. intros [= <-].
    exists []. by rewrite app_nil_r.
  - destruct (for_fold _ (functions st) fns) as [fs'|e] eqn:E; [|done].
    simpl. intros [= <-]. simpl.
    destruct (service_fold _ _ _ _ E) as (new & -> & Hnew).
    exists new. split; [done|]. clear E.
    induction Hnew as [|function_ast f l new Hf _ IH]; [done|].
    rewrite !fmap_cons, IH. f_equal. by eapply parse_function_name.
  - intros [= <-]. exists []. by rewrite app_nil_r.
Qed.

Lemma parse_body_appends (body : list ast.body_part) (st st' : builder) :
  parse_body st body = Ok st' →
  ∃ new, functions st' = functions st ++ new ∧
         Function.name <$> new = declared_functions body.
Proof.
  revert st. induction body as [|part body IH]; intros st.
  - intros [= <-]. exists []. by rewrite app_nil_r.
  - unfold parse_body. intros (st1 & Hpart & Hbody)%for_fold_cons_ok.
    destruct (parse_body_part_appends st st1 part Hpart) as (new1 & H1 & Hn1).
    destruct (IH st1 Hbody) as (new2 & H2 & Hn2).
    exists (new1 ++ new2). split; [by rewrite H2, H1, app_assoc|].
    rewrite fmap_app, Hn1, Hn2. unfold declared_functions. simpl.
    by rewrite app_nil_r.
Qed.

(** X24: A body that is read leaves the functions collected before as they are
    and appends one function per function its services declare, in
    declaration order and under the declared names. *)
Theorem parse_body_functions_in_order (body : list ast.body_part)
    (st st' : builder) :
  parse_body st body = Ok st' →
  ∃ new, functions st' = functions st ++ new ∧
         Function.name <$> new = declared_functions body ∧
         length (functions st') =
         (length (functions st) + length (declared_functions body))%nat.
Proof.
  intros Hbody.
  destruct (parse_body_appends body st st' Hbody) as (new & Hnew & Hnames).
  exists new. split; [done|]. split; [done|].
  by rewrite Hnew, length_app, <- Hnames, length_fmap.
Qed.

Lemma parse_body_functions_in_order_witness :
  ∃ st', parse_body (mkBuilder [Sample.paint] ∅) SampleTree.body = Ok st' ∧
         Function.name <$> functions st' = ["paint"; "add"; "ping"].
Proof.
  destruct (parse_body (mkBuilder [Sample.paint] ∅) SampleTree.body)
    as [st'|e] eqn:E; [|discriminate E].
  exists st'. split; [reflexivity|].
  destruct (parse_body_functions_in_order SampleTree.body
              (mkBuilder [Sample.paint] ∅) st' E) as (new & Hnew & Hnames & _).
  rewrite Hnew, fmap_app, Hnames. reflexivity.
Defined.

Lemma dict_of_found `{Countable K} {A : Type} (key : A → K) (l : list A)
    (k : K) :
  k ∈ key <$> l → ∃ x, dict_of key l !! k = Some x ∧ key x = k ∧ x ∈ l.
Proof.
  intros (y & -> & Hy)%list_elem_of_fmap. rewrite dict_of_lookup.
  destruct (last (filter (λ x, key x = key y) l)) as [x|] eqn:E.
  - exists x. split; [done|]. apply last_Some in E as [l' El].
    assert (Hin : x ∈ filter (λ x, key x = key y) l).
    { rewrite El. apply elem_of_app. right. by left. }
    by apply list_elem_of_filter in Hin as [? ?].
  - apply last_None in E.
    assert (Hin : y ∈ filter (λ x, key x = key y) l)
      by (by apply list_elem_of_filter).
    rewrite E in Hin. by apply elem_of_nil in Hin.
Qed.

(** X25: Every function a service of the body declares can be looked up by name
    in the catalogue made of the functions collected. *)
Theorem declared_function_found (body : list ast.body_part)
    (st st' : builder) (name : string) :
  parse_body st body = Ok st' →
  name ∈ declared_functions body →
  ∃ f, Idl.get_function (Idl.mk (functions st')) name = Some f ∧
       Function.name f = name.
Proof.
  intros Hbody Hname. unfold Idl.get_function, Idl.functions_by_name. simpl.
  destruct (dict_of_found Function.name (functions st') name)
    as (f & Hf & Hn & _); [|eauto].
  destruct (parse_body_appends body st st' Hbody) as (new & -> & Hnames).
  rewrite fmap_app, Hnames. apply elem_of_app. by right.
Qed.

Lemma declared_function_found_witness :
  ∃ st', parse_body (mkBuilder [] ∅) SampleTree.body = Ok st' ∧
         ∃ f, Idl.get_function (Idl.mk (functions st')) "ping" = Some f ∧
              Function.name f = "ping".
Proof.
  destruct (parse_body (mkBuilder [] ∅) SampleTree.body)
    as [st'|e] eqn:E; [|discriminate E].
  exists st'. split; [reflexivity|].
  apply (declared_function_found SampleTree.body (mkBuilder [] ∅) st' "ping" E).
  unfold declared_functions. simpl.
  apply elem_of_cons. right. by left.
Defined.

(** ** Files and their includes *)

Section files.
Variable read : string → option ast.Thrift.
Variable include_path : string → string → string.

Lemma parse_file_appends (depth : nat) (path : string) (st st' : builder) :
  parse_file read include_path depth path st = Built st' →
  ∃ new, functions st' = functions st ++ new ∧
         Function.name <$> new = declared_in_file read include_path depth path.
Proof.
  revert path st st'. induction depth as [|depth IH]; intros path st st';
    [done|].
  simpl. destruct (read path) as [tree|]; [|done].
  destruct (parse_includes _ _ path (ast.includes tree) st)
    as [st1| | |] eqn:Ei; try done.
  destruct (parse_body st1 (ast.body tree)) as [st2|e] eqn:Eb; [|done].
  intros [= <-].
  assert (Hinc : ∃ included,
            functions st1 = functions st ++ included ∧
            Function.name <$> included =
            ast.includes tree ≫= λ include,
              declared_in_file read include_path depth
                (include_path path include)).
  { clear Eb. revert st Ei.
    induction (ast.includes tree) as [|include includes IHi]; intros st;
      simpl.
    - intros [= <-]. exists []. by rewrite app_nil_r.
    - destruct (parse_file read include_path depth
                  (include_path path include) st) as [s1| | |] eqn:E;
        try done.
      intros Hrest. destruct (IH _ _ _ E) as (new1 & H1 & Hn1).
      destruct (IHi _ Hrest) as (new2 & H2 & Hn2).
      exists (new1 ++ new2). split; [by rewrite H2, H1, app_assoc|].
      by rewrite fmap_app, Hn1, Hn2. }
  destruct Hinc as (included & Hinc & Hnames_inc).
  destruct (parse_body_appends _ _ _ Eb) as (own & Hown & Hnames).
  exists (included ++ own). split; [by rewrite Hown, Hinc, app_assoc|].
  by rewrite fmap_app, Hnames_inc, Hnames.
Qed.

(** X26: The catalogue of a file that builds lists, by name and in this
    order, the functions of each file it includes (each included file with
    its own includes first, a file included twice contributing twice) and
    then the functions the file's own services declare, in declaration
    order; it holds no other function. *)
Theorem parse_idl_file_functions (depth : nat) (path : string)
    (idl : Idl.t) :
  parse_idl_file read include_path depth path = Built idl →
  Function.name <$> Idl.functions idl =
  declared_in_file read include_path depth path.
Proof.
  unfold parse_idl_file.
  destruct (parse_file read include_path depth path (mkBuilder [] ∅))
    as [st| | |] eqn:E; try done.
  intros [= <-].
  destruct (parse_file_appends _ _ _ _ E) as (new & Hf & Hnames).
  simpl in Hf. simpl. by rewrite Hf.
Qed.

(** X27: A file whose first include leads, from first include to first include,
    back into a set of files it belongs to is never built: the nesting of
    [parse_file] exceeds every depth. *)
Theorem include_cycle_never_built (cycle : string → Prop) :
  (∀ p, cycle p →
        ∃ tree include rest,
          read p = Some tree ∧ ast.includes tree = include :: rest ∧
          cycle (include_path p include)) →
  ∀ depth path,
    cycle path →
    (∀ st, parse_file read include_path depth path st = TooDeep) ∧
    parse_idl_file read include_path depth path = TooDeep.
Proof.
  intros Hcycle depth.
  assert (Hfile : ∀ path st, cycle path →
            parse_file read include_path depth path st = TooDeep).
  { induction depth as [|depth IH]; intros path st Hpath; [done|].
    destruct (Hcycle path Hpath) as (tree & include & rest & Hr & Hi & Hnext).
    simpl. rewrite Hr, Hi. simpl. by rewrite IH. }
  intros path Hpath. split; [by intros st; apply Hfile|].
  unfold parse_idl_file. by rewrite Hfile.
Qed.
End files.

Lemma parse_idl_file_functions_witness :
  ∃ idl,
    parse_idl_file SampleFiles.read SampleTree.include_path 2 "main.thrift"
    = Built idl ∧
    Function.name <$> Idl.functions idl = ["ping"; "add"].
Proof.
  destruct (parse_idl_file SampleFiles.read SampleTree.include_path 2
              "main.thrift") as [idl| | |] eqn:E; try discriminate E.
  exists idl. split; [reflexivity|].
  rewrite (parse_idl_file_functions SampleFiles.read
             SampleTree.include_path 2 "main.thrift" idl E).
  reflexivity.
Defined.

Lemma include_cycle_never_built_witness :
  parse_idl_file SampleTree.read SampleTree.include_path 50 "a.thrift"
  = TooDeep.
Proof.
  apply (include_cycle_never_built SampleTree.read SampleTree.include_path
           (λ p, p = "a.thrift" ∨ p = "b.thrift")); [|by left].
  intros p [->| ->].
  - exists (ast.mkThrift ["b.thrift"] SampleTree.body), "b.thrift", [].
    split; [reflexivity|]. split; [reflexivity|]. by right.
  - exists (ast.mkThrift ["a.thrift"] []), "a.thrift", [].
    split; [reflexivity|]. split; [reflexivity|]. by left.
Defined.
